(** * tgrid: the Communicator core and the ConnectorBase lifecycle gate

    A shallow embedding of
      - [src/components/Invoke.ts]        (the two wire messages),
      - [src/components/Communicator.ts]  (driver proxy, call issuance,
                                           dispatch engine, destructor),
      - [ConnectorBase]                   (the state gate [inspectReady]),
    followed by the properties the specification states about them.

    Modelling conventions.
      - JavaScript values are the inductive [value].
      - What the TypeScript sources leave to the language or to other
        packages is a field of the class [Host]: reading a member (a data
        property, or an accessor, whose code then runs), calling a
        function value, [serializeError], array-like conversion.
      - The abstract methods of [Communicator] are the class [Derived].
      - Every method runs in the monad [M]: it threads the static
        [SEQUENCE] and the receiver [this], may end in a thrown value, and
        records what it did to the outside world as a list of [event]s.
      - An [async] method is run to completion: its [completion] is the
        settlement of the promise it returns.  The code of the provider and
        [sendData] are taken by how they complete and are not followed
        into calls they may make back on the communicator; the timer of a
        timed [join] fires as a step of its own. *)

From Stdlib Require Import ZArith List String Ascii Bool Lia Sorted Permutation.
Import ListNotations.

Local Open Scope Z_scope.
Local Open Scope string_scope.
Local Open Scope list_scope.

Set Warnings "-register-all".

(** String concatenation, as in a template literal. *)
Infix "+++" := String.append (right associativity, at level 60).

(* ================================================================== *)
(** ** JavaScript values *)
(* ================================================================== *)

(** An [Error] instance: what [new Error(message)] builds, [name] being
    the class of the error ("Error", "TypeError", ...). *)
Module Error.
Record t : Type := make { name : string; message : string }.
End Error.

Definition new_Error (msg : string) : Error.t :=
  {| Error.name := "Error"; Error.message := msg |}.

Definition new_TypeError (msg : string) : Error.t :=
  {| Error.name := "TypeError"; Error.message := msg |}.

(** Built-in functions whose identity the sources compare against. *)
Inductive native : Type :=
| Function_prototype_toString   (* [Function.toString] *)
| Object_prototype_toString
| Function_prototype_bind       (* the [bind] every function inherits *)
| Function_prototype_call       (* and its [call] *)
| Function_prototype_apply.     (* and its [apply] *)

Inductive value : Type :=
| VUndefined
| VNull
| VBoolean (b : bool)
| VNumber (n : Z)
| VString (s : string)
| VError (e : Error.t)
| VArray (items : list value)
| VObject (props : list (string * value))
| VFunction (f : nat)
| VNative (n : native)
| VBound (func thisArg : value).   (* what the built-in [bind] returns *)

(** [typeof v] *)
Definition typeof (v : value) : string :=
  match v with
  | VUndefined => "undefined"
  | VNull => "object"
  | VBoolean _ => "boolean"
  | VNumber _ => "number"
  | VString _ => "string"
  | VError _ | VArray _ | VObject _ => "object"
  | VFunction _ | VNative _ | VBound _ _ => "function"
  end.

(** [v instanceof Error] *)
Definition instanceof_Error (v : value) : bool :=
  match v with VError _ => true | _ => false end.

(** [v === Function.toString]: [Function] is itself a function, so the
    member is the one it inherits from [Function.prototype]. *)
Definition is_Function_toString (v : value) : bool :=
  match v with VNative Function_prototype_toString => true | _ => false end.

(** [typeof v === "function"] *)
Fixpoint callable (v : value) : bool :=
  match v with
  | VFunction _ | VNative _ => true
  | VBound func _ => callable func
  | _ => false
  end.

(** [v === Function.prototype.bind] *)
Definition is_Function_bind (v : value) : bool :=
  match v with VNative Function_prototype_bind => true | _ => false end.

(** The function a call of [g] runs and the receiver it runs with: a bound
    function runs what it was bound from, with the receiver it was bound
    to. *)
Fixpoint bound_target (g this : value) : value * value :=
  match g with
  | VBound func thisArg => bound_target func thisArg
  | _ => (g, this)
  end.

Definition describe (v : value) : string :=
  match v with VNull => "null" | _ => "undefined" end.

(** The outcome of evaluating something that may throw (or, once awaited,
    reject). *)
Inductive completion (A : Type) : Type :=
| Normal (a : A)
| Throw (exn : value).
Arguments Normal {A} a.
Arguments Throw {A} exn.

(** What the sources take from the language and from other packages.
    The code of the provider (its functions, its accessors, a [bind] of
    its own) is taken by how it completes; the events of a method say
    where it runs.  It is not followed into what it may do to the
    communicator itself while it runs. *)
Class Host : Type := {
  (** [v[name]] for a [v] that is neither [undefined] nor [null], where
      the member is a data property (or is missing). *)
  member : value -> string -> value;
  (** Where reading [v[name]] runs code of the object (an accessor
      property, a trap of a proxy): how that code completes. *)
  accessor : value -> string -> option (completion value);
  (** [func.apply(thisArg, args)] for a callable [func] that is not a
      bound function: what the call itself returns or throws. *)
  call_function : value -> value -> list value -> completion value;
  (** [await func.apply(thisArg, args)] for a callable [func] that is not
      a bound function: what the call, once awaited, gives. *)
  apply_function : value -> value -> list value -> completion value;
  (** [serializeError] of [utils/internal/serializeError], which turns an
      [Error] instance into a plain record. *)
  serializeError : value -> value;
  (** The list of arguments [Function.prototype.apply] reads from its
      second argument. *)
  array_like : value -> completion (list value)
}.

(* ================================================================== *)
(** ** Strings *)
(* ================================================================== *)

(** [s.split(sep)] for a one-character separator. *)
Fixpoint split (sep : ascii) (s : string) : list string :=
  match s with
  | EmptyString => [EmptyString]
  | String c rest =>
      if Ascii.eqb c sep then EmptyString :: split sep rest
      else match split sep rest with
           | [] => [String c EmptyString]
           | hd :: tl => String c hd :: tl
           end
  end.

(** [s[0]] *)
Definition first_char (s : string) : option ascii :=
  match s with
  | EmptyString => None
  | String c _ => Some c
  end.

(** [s[s.length - 1]] *)
Fixpoint last_char (s : string) : option ascii :=
  match s with
  | EmptyString => None
  | String c EmptyString => Some c
  | String _ rest => last_char rest
  end.

Definition is_underscore (c : option ascii) : bool :=
  match c with
  | Some c => Ascii.eqb c "_"%char
  | None => false
  end.

(** A string is truthy exactly when it is not empty. *)
Definition truthy_string (s : string) : bool :=
  match s with EmptyString => false | _ => true end.

(** [s] occurs in [t]. *)
Definition contains (s t : string) : Prop :=
  exists pre post, t = pre +++ s +++ post.

(* ================================================================== *)
(** ** Invoke.ts *)
(* ================================================================== *)

Module Invoke.

Module IParameter.
Record t : Type := make { type : string; value : value }.
End IParameter.

Module IFunction.
Record t : Type := make {
  uid : Z;
  listener : string;
  parameters : list IParameter.t
}.
End IFunction.

Module IReturn.
Record t : Type := make {
  uid : Z;
  success : bool;
  value : value
}.
End IReturn.

(** [type Invoke = Invoke.IFunction | Invoke.IReturn] *)
Inductive t : Type :=
| Function (f : IFunction.t)
| Return (r : IReturn.t).

(** [invoke.uid] *)
Definition uid (invoke : t) : Z :=
  match invoke with
  | Function f => IFunction.uid f
  | Return r => IReturn.uid r
  end.

(** [(invoke as Invoke.IFunction).listener] is truthy: a return message
    has no such field. *)
Definition has_listener (invoke : t) : bool :=
  match invoke with
  | Function f => truthy_string (IFunction.listener f)
  | Return _ => false
  end.

(** [invoke as Invoke.IReturn]: a call message has neither [success] nor
    [value]; the missing [success] is falsy. *)
Definition as_IReturn (invoke : t) : IReturn.t :=
  match invoke with
  | Return r => r
  | Function f =>
      {| IReturn.uid := IFunction.uid f;
         IReturn.success := false;
         IReturn.value := VUndefined |}
  end.

End Invoke.

(* ================================================================== *)
(** ** The containers of tstl the communicator owns *)
(* ================================================================== *)

(** [type FunctionLike = (...args: any[]) => any].  The only functions the
    communicator stores are the two continuations of the promise a call
    returns; [promise] identifies that promise. *)
Inductive FunctionLike : Type :=
| resolve_of (promise : nat)
| reject_of (promise : nat).

(** tstl's [Pair]. *)
Record Pair : Type := new_Pair { first : FunctionLike; second : FunctionLike }.

(** Modelled from the spec: tstl's [HashMap] is not part of the sources.
    It is the pending-call table of the specification, from call-id to the
    waiter pair; entries are kept in insertion order, which is the order
    its iterator visits them in. *)
Module HashMap.

Definition t : Type := list (Z * Pair).

(** [new HashMap()] *)
Definition empty : t := [].

(** [m.find(key)]; [None] stands for [m.end()]. *)
Fixpoint find (key : Z) (m : t) : option Pair :=
  match m with
  | [] => None
  | (k, v) :: rest => if (k =? key)%Z then Some v else find key rest
  end.

(** [m.has(key)] *)
Definition has (key : Z) (m : t) : bool :=
  match find key m with Some _ => true | None => false end.

(** [m.emplace(key, value)]: a key that is present keeps its entry. *)
Definition emplace (key : Z) (v : Pair) (m : t) : t :=
  if has key m then m else m ++ [(key, v)].

(** [m.erase(m.find(key))] *)
Fixpoint erase (key : Z) (m : t) : t :=
  match m with
  | [] => []
  | (k, v) :: rest => if (k =? key)%Z then rest else (k, v) :: erase key rest
  end.

(** [m.clear()] *)
Definition clear (m : t) : t := [].

Definition keys (m : t) : list Z := map fst m.

End HashMap.

(** Modelled from the spec: tstl's [ConditionVariable] is not part of the
    sources.  It is the join coordinator of the specification: a waiter is
    the promise [wait], [wait_for] or [wait_until] returned, and
    [notify_all] releases every waiter, the timed ones with [true]. *)
Module ConditionVariable.

Record waiter : Type := new_waiter { ticket : nat; timed : bool }.

Definition t : Type := list waiter.

Definition empty : t := [].

(** What the promise of a released waiter resolves with. *)
Definition released (w : waiter) : value :=
  if timed w then VBoolean true else VUndefined.

(** [w] is the timed waiter whose promise is [promise]. *)
Definition expires (promise : nat) (w : waiter) : bool :=
  timed w && Nat.eqb (ticket w) promise.

(** The time of a timed waiter is over: it leaves the coordinator (its
    promise then resolves with [false]).  The waiters of [wait] have no
    time to run out. *)
Definition expire (promise : nat) (cv : t) : t :=
  filter (fun w => negb (expires promise w)) cv.

End ConditionVariable.

(* ================================================================== *)
(** ** Communicator.ts: state, effects *)
(* ================================================================== *)

(** What a method does to the world outside the communicator. *)
Inductive event : Type :=
| EvSend (invoke : Invoke.t)                    (* [this.sendData(invoke)] *)
| EvContinue (f : FunctionLike) (v : value)     (* [f(v)] for a stored continuation *)
| EvProvider (func thisArg : value) (args : list value)
                                                (* a function of the provider runs *)
| EvWake (ticket : nat) (v : value)             (* a waiter of [join_cv_] resolves *)
| EvUnhandledRejection (exn : value)            (* a promise nobody holds rejects *)
| EvGetter (thisArg : value) (name : string)    (* reading a member runs code of the provider *)
| EvOwnBind (bind_ func thisArg : value).       (* a [bind] of the provider's own runs *)

(** The abstract methods of [Communicator], over the state [Sub] a concrete
    subclass adds to the object. *)
Class Derived (Sub : Type) : Type := {
  (** [this.constructor.name] *)
  constructor_name : Sub -> string;
  (** [protected abstract inspectReady(method: string): Error | null] *)
  inspectReady : Sub -> string -> option Error.t;
  (** [protected abstract sendData(invoke: Invoke): Promise<void>], awaited:
      the promise resolves or rejects. *)
  sendData : Sub -> Invoke.t -> Sub * completion unit
}.

Section Communicator.

Context {host : Host} {Sub : Type} {derived : Derived Sub}.

(** The fields of a communicator.  [driver_] is a proxy that closes over
    [this] and holds nothing of its own; it is [driver_get] below. *)
Record Communicator : Type := new_Communicator {
  provider_ : value;
  promises_ : HashMap.t;
  join_cv_ : ConditionVariable.t;
  sub_ : Sub
}.

(** What a method runs on: the static [Communicator.SEQUENCE] and [this]. *)
Record frame : Type := new_frame {
  SEQUENCE : Z;
  this : Communicator
}.

Record result (A : Type) : Type := new_result {
  outcome : completion A;
  after : frame;
  emitted : list event
}.
Arguments new_result {A} outcome after emitted.
Arguments outcome {A} r.
Arguments after {A} r.
Arguments emitted {A} r.

Definition M (A : Type) : Type := frame -> result A.

Definition ret {A : Type} (a : A) : M A :=
  fun s => new_result (Normal a) s [].

Definition throw {A : Type} (exn : value) : M A :=
  fun s => new_result (Throw exn) s [].

Definition bind {A B : Type} (m : M A) (k : A -> M B) : M B :=
  fun s =>
    let r := m s in
    match outcome r with
    | Normal a =>
        let r' := k a (after r) in
        new_result (outcome r') (after r') (emitted r ++ emitted r')
    | Throw exn => new_result (Throw exn) (after r) (emitted r)
    end.

(** [try { m } catch (exp) { handler exp }] *)
Definition try_catch {A : Type} (m : M A) (handler : value -> M A) : M A :=
  fun s =>
    let r := m s in
    match outcome r with
    | Normal a => r
    | Throw exn =>
        let r' := handler exn (after r) in
        new_result (outcome r') (after r') (emitted r ++ emitted r')
    end.

(** [m.catch(() => {})] *)
Definition catch_and_drop (m : M unit) : M unit :=
  try_catch m (fun _ => ret tt).

(** An asynchronous function whose promise nobody keeps: the caller goes
    on, a rejection is left unhandled. *)
Definition detached (m : M unit) : M unit :=
  try_catch m (fun exn => fun s => new_result (Normal tt) s [EvUnhandledRejection exn]).

Definition lift {A : Type} (c : completion A) : M A :=
  fun s => new_result c s [].

(** A step that may run code of the provider, but does not touch the
    communicator: how it completes, and what ran. *)
Definition traced (A : Type) : Type := (completion A * list event)%type.

Definition lift_traced {A : Type} (t : traced A) : M A :=
  fun s => new_result (fst t) s (snd t).

Definition emit (e : event) : M unit :=
  fun s => new_result (Normal tt) s [e].

Definition get_this : M Communicator :=
  fun s => new_result (Normal (this s)) s [].

Definition set_this (c : Communicator) : M unit :=
  fun s => new_result (Normal tt) (new_frame (SEQUENCE s) c) [].

Notation "x <- m ;; k" := (bind m (fun x => k))
  (at level 61, m at next level, right associativity).
Notation "m ;;; k" := (bind m (fun _ => k))
  (at level 61, right associativity).

(** [for (const x of xs) body(x)] *)
Fixpoint for_of {A : Type} (xs : list A) (body : A -> M unit) : M unit :=
  match xs with
  | [] => ret tt
  | x :: rest => body x ;;; for_of rest body
  end.

Definition set_provider_ (v : value) : M unit :=
  c <- get_this ;;
  set_this (new_Communicator v (promises_ c) (join_cv_ c) (sub_ c)).

Definition set_promises_ (m : HashMap.t) : M unit :=
  c <- get_this ;;
  set_this (new_Communicator (provider_ c) m (join_cv_ c) (sub_ c)).

Definition set_join_cv_ (cv : ConditionVariable.t) : M unit :=
  c <- get_this ;;
  set_this (new_Communicator (provider_ c) (promises_ c) cv (sub_ c)).

(** [Number.MAX_SAFE_INTEGER], 2^53 - 1. *)
Definition MAX_SAFE_INTEGER : Z := 9007199254740991.

(** [n + 1] on a number that holds a non-negative integer: exact up to
    2^53; above, the sum is rounded to the nearest double, a tie going to
    the even mantissa. *)
Definition increment (n : Z) : Z :=
  if (n <=? MAX_SAFE_INTEGER)%Z then n + 1
  else if (n <? 2 ^ 54)%Z then (if (n mod 4 =? 0)%Z then n else n + 2)
  else n.

(** [++Communicator.SEQUENCE] *)
Definition pre_increment_SEQUENCE : M Z :=
  fun s =>
    let n := increment (SEQUENCE s) in
    new_result (Normal n) (new_frame n (this s)) [].

(** [await this.sendData(invoke)] *)
Definition send (invoke : Invoke.t) : M unit :=
  fun s =>
    let c := this s in
    let '(sub', r) := sendData (sub_ c) invoke in
    new_result r
      (new_frame (SEQUENCE s)
         (new_Communicator (provider_ c) (promises_ c) (join_cv_ c) sub'))
      [EvSend invoke].

(** [await this.join_cv_.notify_all()] *)
Definition notify_all : M unit :=
  c <- get_this ;;
  for_of (join_cv_ c)
    (fun w => emit (EvWake (ConditionVariable.ticket w)
                           (ConditionVariable.released w))) ;;;
  set_join_cv_ ConditionVariable.empty.

(* ------------------------------------------------------------------ *)
(** *** Constructors *)

(** [protected constructor(provider: Provider)], [sub] being what the
    constructor of the subclass adds. *)
Definition constructor (provider : value) (sub : Sub) : Communicator :=
  {| provider_ := provider;
     promises_ := HashMap.empty;
     join_cv_ := ConditionVariable.empty;
     sub_ := sub |}.

(** [super(provider)] in the constructor of a subclass. *)
Definition super (provider : value) (sub : Sub) : Communicator :=
  constructor provider sub.

(** [protected async destructor(error?: Error): Promise<void>] *)
Definition destructor (error : option Error.t) : M unit :=
  let rejectError : Error.t :=
    match error with
    | Some error => error
    | None => new_Error "Connection has been closed."
    end in
  c <- get_this ;;
  for_of (promises_ c)
    (fun entry =>
       let reject := second (snd entry) in
       emit (EvContinue reject (VError rejectError))) ;;;
  set_promises_ (HashMap.clear (promises_ c)) ;;;
  notify_all.

(* ------------------------------------------------------------------ *)
(** *** The driver *)

(** [private _Call_function(name: string, ...params: any[]): Promise<any>].
    [resolve] and [reject] are the continuations of the promise being
    built, which is what the method returns; the executor is asynchronous
    and nobody keeps its promise. *)
Definition _Call_function (name : string) (params : list value)
    (resolve reject : FunctionLike) : M unit :=
  detached (
  c <- get_this ;;
  match inspectReady (sub_ c) "Communicator._Call_fuction" with
  | Some error => emit (EvContinue reject (VError error))
  | None =>
      uid <- pre_increment_SEQUENCE ;;
      let invoke : Invoke.IFunction.t :=
        {| Invoke.IFunction.uid := uid;
           Invoke.IFunction.listener := name;
           Invoke.IFunction.parameters :=
             map (fun p => {| Invoke.IParameter.type := typeof p;
                              Invoke.IParameter.value := p |}) params |} in
      c <- get_this ;;
      set_promises_
        (HashMap.emplace (Invoke.IFunction.uid invoke)
           (new_Pair resolve reject) (promises_ c)) ;;;
      send (Invoke.Function invoke)
  end).

(** What an attribute read on the driver, or on what such a read gave,
    evaluates to. *)
Inductive node : Type :=
| NNull                                      (* [null] *)
| NProxy (name : string)                     (* [_Proxy_func(name)] *)
| NBind (name : string)   (* [(thisArg, ...args) => func.bind(thisArg, ...args)] *)
| NCall (name : string)   (* [(thisArg, ...args) => func.call(thisArg, ...args)] *)
| NApply (name : string)  (* [(thisArg, args) => func.apply(thisArg, args)] *)
| NBound (name : string) (args : list value).  (* [func.bind(thisArg, ...args)] *)

(** [private _Proxy_func(name: string): FunctionLike] *)
Definition _Proxy_func (name : string) : node := NProxy name.

(** The [get] trap of the proxy [_Proxy_func(name)] returns. *)
Definition _Proxy_func_get (name newName : string) : node :=
  if newName =? "bind" then NBind name
  else if newName =? "call" then NCall name
  else if newName =? "apply" then NApply name
  else _Proxy_func (name +++ "." +++ newName).

(** The [get] trap of [driver_], set up by the constructor. *)
Definition driver_get (name : string) : node :=
  if name =? "then" then NNull
  else _Proxy_func name.



(** [n[attr]] where the sources define it: on [null] the read throws, on
    a proxy it goes through the trap.  The helper closures and bound
    functions are ordinary functions whose members the sources do not
    define ([None]). *)
Definition node_get (n : node) (attr : string) : option (completion node) :=
  match n with
  | NNull =>
      Some (Throw (VError (new_TypeError
        ("Cannot read properties of null (reading '" +++ attr +++ "')"))))
  | NProxy name => Some (Normal (_Proxy_func_get name attr))
  | _ => None
  end.

(** [driver.a.b.c]: the reads of [names], from left to right. *)
Fixpoint node_path (n : node) (names : list string) : option (completion node) :=
  match names with
  | [] => Some (Normal n)
  | attr :: rest =>
      match node_get n attr with
      | Some (Normal n') => node_path n' rest
      | other => other
      end
  end.

Definition driver_path (names : list string) : option (completion node) :=
  match names with
  | [] => None
  | attr :: rest => node_path (driver_get attr) rest
  end.

(** [n(...args)].  A call that reaches [_Call_function] builds a promise,
    whose continuations are [resolve] and [reject], and returns it
    ([None]); [bind] returns a function ([Some]). *)
Definition node_call (n : node) (args : list value)
    (resolve reject : FunctionLike) : M (option node) :=
  match n with
  | NNull => throw (VError (new_TypeError "null is not a function"))
  | NProxy name =>
      _Call_function name args resolve reject ;;; ret None
  | NBound name bound =>
      _Call_function name (bound ++ args) resolve reject ;;; ret None
  | NBind name => ret (Some (NBound name (tl args)))
  | NCall name =>
      _Call_function name (tl args) resolve reject ;;; ret None
  | NApply name =>
      params <- lift (match nth_error args 1 with
                      | None | Some VUndefined | Some VNull => Normal []
                      | Some a => array_like a
                      end) ;;
      _Call_function name params resolve reject ;;; ret None
  end.

(* ------------------------------------------------------------------ *)
(** *** Accessors *)

(** [public setProvider(obj: Provider): void] *)
Definition setProvider (obj : value) : M unit := set_provider_ obj.

(** [public getProvider(): Provider] *)
Definition getProvider : M value :=
  c <- get_this ;; ret (provider_ c).

(** [public async join(param?: number | Date)].  [param] is [None] for the
    form without argument and the number, or the time of the date, for the
    two timed forms; [ticket] is the promise the coordinator hands out,
    which stays pending until it is released by [notify_all] or, for a
    timed form, until its time is over ([expire]).  There is no clock
    here: [param] says when the timer the coordinator sets will fire, and
    the firing itself is a step of its own, taken whenever the environment
    takes it. *)
Definition join (param : option Z) (ticket : nat) : M unit :=
  c <- get_this ;;
  match inspectReady (sub_ c) (constructor_name (sub_ c) +++ ".join") with
  | Some error => throw (VError error)
  | None =>
      let timed := match param with Some _ => true | None => false end in
      set_join_cv_ (join_cv_ c ++ [ConditionVariable.new_waiter ticket timed])
  end.

(** The timer of the timed [join] whose promise is [ticket] fires: where
    that waiter is still registered it leaves the coordinator and its
    promise resolves with [false]; where it was released before, nothing
    happens. *)
Definition expire (ticket : nat) : M unit :=
  c <- get_this ;;
  if existsb (ConditionVariable.expires ticket) (join_cv_ c) then
    emit (EvWake ticket (VBoolean false)) ;;;
    set_join_cv_ (ConditionVariable.expire ticket (join_cv_ c))
  else ret tt.

(* ------------------------------------------------------------------ *)
(** *** Sender *)

(** [private async _Send_return(uid, success, value): Promise<void>] *)
Definition _Send_return (uid : Z) (success : bool) (v : value) : M unit :=
  let v := if negb success && instanceof_Error v then serializeError v else v in
  let ret_ : Invoke.IReturn.t :=
    {| Invoke.IReturn.uid := uid;
       Invoke.IReturn.success := success;
       Invoke.IReturn.value := v |} in
  send (Invoke.Return ret_).

(* ------------------------------------------------------------------ *)
(** *** Replier *)

Definition error_starting (listener : string) : Error.t :=
  new_Error ("Error on Communicator._Handle_function(): RFC does not allow access to a member starting with the underscore: Provider." +++ listener +++ "()").

Definition error_ending (listener : string) : Error.t :=
  new_Error ("Error on Communicator._Handle_function(): RFC does not allow access to a member ending with the underscore: Provider." +++ listener +++ "().").

Definition error_toString (listener : string) : Error.t :=
  new_Error ("Error on Communicator._Handle_function(): RFC on Function.toString() is not allowed: Provider." +++ listener +++ "().").

Definition error_reserved (name listener : string) : Error.t :=
  new_Error ("Error on Communicator._Handle_function(): RFC does not allow access to " +++ name +++ ": Provider." +++ listener +++ "().").

Definition error_unspecified : Error.t :=
  new_Error "Error on Communicator._Handle_function(): the provider is not specified yet.".

Definition error_would_not_be : Error.t :=
  new_Error "Error on Communicator._Handle_function(): the provider would not be.".

(** The [TypeError] of reading a member of [undefined] or [null]; the
    wording is the engine's. *)
Definition error_reading (thisArg : value) (name : string) : Error.t :=
  new_TypeError ("Cannot read properties of " +++ describe thisArg +++
                 " (reading '" +++ name +++ "')").

(** [thisArg[name]] *)
Definition get_member (thisArg : value) (name : string) : traced value :=
  match thisArg with
  | VUndefined | VNull => (Throw (VError (error_reading thisArg name)), [])
  | _ =>
      match accessor thisArg name with
      | Some got => (got, [EvGetter thisArg name])
      | None => (Normal (member thisArg name), [])
      end
  end.

(** The security checks of one step of the walk; [None] lets the step
    pass. *)
Definition security_error (listener name : string) (func : value)
    : option Error.t :=
  if is_underscore (first_char name) then Some (error_starting listener)
  else if is_underscore (last_char name) then Some (error_ending listener)
  else if (name =? "toString") && is_Function_toString func
    then Some (error_toString listener)
  else if (name =? "constructor") || (name =? "prototype")
    then Some (error_reserved name listener)
  else None.

(** [for (const name of routes) { ... }] of [_Handle_function], started
    with the current [thisArg] and [func]; the result is the final pair. *)
Fixpoint walk (listener : string) (routes : list string)
    (thisArg func : value) : traced (value * value) :=
  match routes with
  | [] => (Normal (thisArg, func), [])
  | name :: rest =>
      let thisArg := func in
      match get_member thisArg name with
      | (Throw exn, ran) => (Throw exn, ran)
      | (Normal func, ran) =>
          match security_error listener name func with
          | Some error => (Throw (VError error), ran)
          | None =>
              (fst (walk listener rest thisArg func),
               ran ++ snd (walk listener rest thisArg func))
          end
      end
  end.

Definition error_not_a_function (what : string) : Error.t :=
  new_TypeError (what +++ " is not a function").

(** [func.bind(thisArg)]: the member [bind] of [func] is read and called
    on [func].  The built-in of functions gives the bound function; a
    [bind] of the provider's own is run, and what it returns is taken. *)
Definition bind_thisArg (func thisArg : value) : traced value :=
  match get_member func "bind" with
  | (Throw exn, ran) => (Throw exn, ran)
  | (Normal bind_, ran) =>
      if is_Function_bind bind_ then
        if callable func then (Normal (VBound func thisArg), ran)
        else (Throw (VError (new_TypeError "Bind must be called on a function")),
              ran)
      else
        let target := bound_target bind_ func in
        if callable (fst target) then
          (call_function (fst target) (snd target) [thisArg],
           ran ++ [EvOwnBind (fst target) (snd target) thisArg])
        else (Throw (VError (error_not_a_function "func.bind")), ran)
  end.

(** [await func(...parameters)] for what [bind] gave. *)
Definition call_bound (func : value) (parameters : list value) : M value :=
  let target := bound_target func VUndefined in
  if callable (fst target) then
    emit (EvProvider (fst target) (snd target) parameters) ;;;
    lift (apply_function (fst target) (snd target) parameters)
  else throw (VError (error_not_a_function "func")).

(** [if (this.provider_ === undefined) throw ...; else if (this.provider_
    === null) throw ...] *)
Definition provider_must_be (provider : value) : completion value :=
  match provider with
  | VUndefined => Throw (VError error_unspecified)
  | VNull => Throw (VError error_would_not_be)
  | _ => Normal provider
  end.

(** The statements of the [try] block of [_Handle_function] up to the call
    of the provider's function: they find the function and call it. *)
Definition find_and_call (invoke : Invoke.IFunction.t) : M value :=
  c <- get_this ;;
  provider <- lift (provider_must_be (provider_ c)) ;;
  let routes := split "."%char (Invoke.IFunction.listener invoke) in
  found <- lift_traced (walk (Invoke.IFunction.listener invoke) routes
                             VUndefined provider) ;;
  bound <- lift_traced (bind_thisArg (snd found) (fst found)) ;;
  let parameters :=
    map Invoke.IParameter.value (Invoke.IFunction.parameters invoke) in
  call_bound bound parameters.

(** [private async _Handle_function(invoke: Invoke.IFunction): Promise<void>] *)
Definition _Handle_function (invoke : Invoke.IFunction.t) : M unit :=
  let uid := Invoke.IFunction.uid invoke in
  try_catch
    (ret_ <- find_and_call invoke ;;
     _Send_return uid true ret_)
    (fun exp => _Send_return uid false exp).

(** [private _Handle_return(invoke: Invoke.IReturn): void] *)
Definition _Handle_return (invoke : Invoke.IReturn.t) : M unit :=
  c <- get_this ;;
  match HashMap.find (Invoke.IReturn.uid invoke) (promises_ c) with
  | None => ret tt
  | Some it =>
      let func := if Invoke.IReturn.success invoke then first it else second it in
      set_promises_ (HashMap.erase (Invoke.IReturn.uid invoke) (promises_ c)) ;;;
      emit (EvContinue func (Invoke.IReturn.value invoke))
  end.

(** [protected replyData(invoke: Invoke): void] *)
Definition replyData (invoke : Invoke.t) : M unit :=
  match invoke with
  | Invoke.Function f =>
      if Invoke.has_listener invoke
      then catch_and_drop (_Handle_function f)
      else _Handle_return (Invoke.as_IReturn invoke)
  | Invoke.Return r => _Handle_return r
  end.

(** The messages handed to [sendData], in order. *)
Fixpoint sent (evs : list event) : list Invoke.t :=
  match evs with
  | [] => []
  | EvSend invoke :: rest => invoke :: sent rest
  | _ :: rest => sent rest
  end.

(** The calls of provider functions among the events. *)
Fixpoint provider_calls (evs : list event) : list event :=
  match evs with
  | [] => []
  | EvProvider f t a :: rest => EvProvider f t a :: provider_calls rest
  | _ :: rest => provider_calls rest
  end.

End Communicator.

Arguments new_result {Sub A} outcome after emitted.
Arguments outcome {Sub A} r.
Arguments after {Sub A} r.
Arguments emitted {Sub A} r.

Notation "x <- m ;; k" := (bind m (fun x => k))
  (at level 61, m at next level, right associativity).
Notation "m ;;; k" := (bind m (fun _ => k))
  (at level 61, right associativity).

(* ================================================================== *)
(** ** A process: the static counter and the communicators that share it *)
(* ================================================================== *)

Section Process.

Context {host : Host} {Sub : Type} {derived : Derived Sub}.

Record process : Type := new_process {
  static_SEQUENCE : Z;                      (* [Communicator.SEQUENCE] *)
  objects : list (@Communicator Sub)        (* the communicators alive *)
}.

(** [private static SEQUENCE: number = 0] *)
Definition boot : process :=
  {| static_SEQUENCE := 0; objects := [] |}.

(** What the program around the communicators may do next. *)
Inductive action : Type :=
| ANew (provider : value) (sub : Sub)
| ACall (i : nat) (name : string) (params : list value) (promise : nat)
| AReply (i : nat) (invoke : Invoke.t)
| ADestructor (i : nat) (error : option Error.t)
| ASetProvider (i : nat) (obj : value)
| AJoin (i : nat) (param : option Z) (ticket : nat)
| AExpire (i : nat) (ticket : nat)
| ASubclass (i : nat) (sub : Sub).      (* the subclass changes its own fields *)

Fixpoint replace_nth {A : Type} (i : nat) (x : A) (l : list A) : list A :=
  match l, i with
  | [], _ => []
  | _ :: rest, O => x :: rest
  | y :: rest, S i => y :: replace_nth i x rest
  end.

(** Run a method on the [i]-th communicator. *)
Definition on_object {A : Type} (i : nat) (m : M A) (p : process)
    : process * list event :=
  match nth_error (objects p) i with
  | None => (p, [])
  | Some c =>
      let r := m (new_frame (static_SEQUENCE p) c) in
      (new_process (SEQUENCE (after r))
         (replace_nth i (this (after r)) (objects p)),
       emitted r)
  end.

Definition set_sub_ (sub : Sub) : M unit :=
  c <- get_this ;;
  set_this (new_Communicator (provider_ c) (promises_ c) (join_cv_ c) sub).

Definition perform (a : action) (p : process) : process * list event :=
  match a with
  | ANew provider sub =>
      (new_process (static_SEQUENCE p) (objects p ++ [constructor provider sub]),
       [])
  | ACall i name params promise =>
      on_object i
        (_Call_function name params (resolve_of promise) (reject_of promise)) p
  | AReply i invoke => on_object i (replyData invoke) p
  | ADestructor i error => on_object i (destructor error) p
  | ASetProvider i obj => on_object i (setProvider obj) p
  | AJoin i param ticket => on_object i (join param ticket) p
  | AExpire i ticket => on_object i (expire ticket) p
  | ASubclass i sub => on_object i (set_sub_ sub) p
  end.

Fixpoint run (acts : list action) (p : process) : process * list event :=
  match acts with
  | [] => (p, [])
  | a :: rest =>
      let '(p1, evs1) := perform a p in
      let '(p2, evs2) := run rest p1 in
      (p2, evs1 ++ evs2)
  end.

(** The uids the process has minted, in order: those of the call messages
    handed to [sendData]. *)
Fixpoint minted (evs : list event) : list Z :=
  match evs with
  | [] => []
  | EvSend (Invoke.Function f) :: rest => Invoke.IFunction.uid f :: minted rest
  | _ :: rest => minted rest
  end.

End Process.

(* ================================================================== *)
(** ** ConnectorBase *)
(* ================================================================== *)

Module ConnectorBase.

(** [export const enum State] *)
Module State.
Definition NONE : Z := -1.
Definition CONNECTING : Z := 0.
Definition OPEN : Z := 1.
Definition CLOSING : Z := 2.
Definition CLOSED : Z := 3.
End State.

(** What [ConnectorBase] adds to a communicator.  [class_name] is
    [this.constructor.name], the name of the concrete subclass. *)
Record t (Header : Type) : Type := make {
  class_name : string;
  header_ : Header;
  state_ : Z
}.
Arguments make {Header} class_name header_ state_.
Arguments class_name {Header} t.
Arguments header_ {Header} t.
Arguments state_ {Header} t.

(** [public constructor(header: Header, provider: Provider)], run for the
    concrete subclass [class_name]. *)
Definition constructor {Header : Type} (class_name : string)
    (header : Header) (provider : value) : @Communicator (t Header) :=
  super provider
    {| class_name := class_name; header_ := header; state_ := State.NONE |}.

(** [public get header(): Header] *)
Definition header {Header : Type} (this : t Header) : Header := header_ this.

(** [public get state(): ConnectorBase.State] *)
Definition state {Header : Type} (this : t Header) : Z := state_ this.

Definition diagnostic {Header : Type} (this : t Header) (method hint : string)
    : Error.t :=
  new_Error ("Error on " +++ class_name this +++ "." +++ method +++ "(): " +++ hint).

(** [protected inspectReady(method: string): Error | null] *)
Definition inspectReady {Header : Type} (this : t Header) (method : string)
    : option Error.t :=
  if (state_ this =? State.OPEN)%Z then None
  else if (state_ this =? State.NONE)%Z then
    Some (diagnostic this method "connect first.")
  else if (state_ this =? State.CONNECTING)%Z then
    Some (diagnostic this method "it's on connecting, wait for a second.")
  else if (state_ this =? State.CLOSING)%Z then
    Some (diagnostic this method "the connection is on closing.")
  else if (state_ this =? State.CLOSED)%Z then
    Some (diagnostic this method "the connection has been closed.")
  else
    Some (diagnostic this method "unknown error, but not connected.").

(** A concrete connector: [ConnectorBase] with the [sendData] of its
    subclass. *)
Definition derived {Header : Type}
    (sendData : t Header -> Invoke.t -> t Header * completion unit)
    : Derived (t Header) :=
  Build_Derived (t Header) class_name inspectReady sendData.

End ConnectorBase.

(* ================================================================== *)
(** ** A concrete host, provider and connector, to run the model on *)
(* ================================================================== *)

Module Example.

Fixpoint own (props : list (string * value)) (name : string) : option value :=
  match props with
  | [] => None
  | (k, v) :: rest => if k =? name then Some v else own rest name
  end.

(** Functions 0 to 4 are [echo], [add], [boom], [_secret] and [raw]. *)
Definition provider : value :=
  VObject [("echo", VFunction 0);
           ("math", VObject [("add", VFunction 1)]);
           ("boom", VFunction 2);
           ("_secret", VFunction 3);
           ("raw", VFunction 4)].

(** A provider with an accessor and with a [bind] of its own.  Function
    5 is the getter of [_token], function 6 the [bind] of [maker], and
    function 7 what that [bind] returns. *)
Definition vault : value :=
  VObject [("echo", VFunction 0);
           ("get _token", VFunction 5);
           ("maker", VObject [("bind", VFunction 6)])].

Definition example_member (v : value) (name : string) : value :=
  match v with
  | VObject props =>
      match own props name with
      | Some x => x
      | None =>
          if name =? "toString" then VNative Object_prototype_toString
          else VUndefined
      end
  | VFunction _ | VNative _ | VBound _ _ =>
      if name =? "toString" then VNative Function_prototype_toString
      else if name =? "bind" then VNative Function_prototype_bind
      else if name =? "call" then VNative Function_prototype_call
      else if name =? "apply" then VNative Function_prototype_apply
      else VUndefined
  | _ => VUndefined
  end.

Definition example_array_like (v : value) : completion (list value) :=
  match v with
  | VArray items => Normal items
  | VObject _ | VError _ | VFunction _ | VNative _ | VBound _ _ => Normal []
  | _ => Throw (VError (new_TypeError
                 "CreateListFromArrayLike called on non-object"))
  end.

(** The functions of the example, none of which is asynchronous: calling
    one and awaiting the call give the same.  [depth] bounds how deep
    [call] and [apply] nest before the engine gives up. *)
Fixpoint example_apply_within (depth : nat) (func thisArg : value)
    (args : list value) : completion value :=
  let apply_to (target : value * value) (args : list value) :=
    match depth with
    | O => Throw (VError {| Error.name := "RangeError";
                            Error.message := "Maximum call stack size exceeded" |})
    | S depth =>
        if callable (fst target)
        then example_apply_within depth (fst target) (snd target) args
        else Throw (VError (new_TypeError "not a function"))
    end in
  match func with
  | VFunction 0 => Normal (hd VUndefined args)
  | VFunction 1 =>
      match args with
      | [VNumber a; VNumber b] => Normal (VNumber (a + b))
      | _ => Normal VUndefined
      end
  | VFunction 2 => Throw (VError (new_Error "nope"))
  | VFunction 3 => Normal (VNumber 1)
  | VFunction 4 => Throw (VString "raw")
  | VFunction 5 => Normal (VString "s3cret")
  | VFunction 6 => Normal (VFunction 7)
  | VFunction 7 => Normal (VString "made")
  | VNative Object_prototype_toString => Normal (VString "[object Object]")
  | VNative Function_prototype_bind =>
      if callable thisArg
      then Normal (VBound thisArg (hd VUndefined args))
      else Throw (VError (new_TypeError "Bind must be called on a function"))
  | VNative Function_prototype_call =>
      apply_to (bound_target thisArg (hd VUndefined args)) (tl args)
  | VNative Function_prototype_apply =>
      match nth 1 args VUndefined with
      | VUndefined | VNull =>
          apply_to (bound_target thisArg (hd VUndefined args)) []
      | list_ =>
          match example_array_like list_ with
          | Normal items =>
              apply_to (bound_target thisArg (hd VUndefined args)) items
          | Throw exn => Throw exn
          end
      end
  | _ => Throw (VError (new_TypeError "not supported"))
  end.

Definition example_apply : value -> value -> list value -> completion value :=
  example_apply_within 64.

(** Accessor properties are kept under the key "get <name>": reading
    [name] runs that getter on the object. *)
Definition example_accessor (v : value) (name : string)
    : option (completion value) :=
  match v with
  | VObject props =>
      match own props ("get " +++ name) with
      | Some getter => Some (example_apply getter v [])
      | None => None
      end
  | _ => None
  end.

(** The record [serializeError] makes of an error, without the [stack],
    which depends on the engine. *)
Definition example_serializeError (v : value) : value :=
  match v with
  | VError e =>
      VObject [("name", VString (Error.name e));
               ("message", VString (Error.message e))]
  | _ => v
  end.

Definition host : Host :=
  {| member := example_member;
     accessor := example_accessor;
     call_function := example_apply;
     apply_function := example_apply;
     serializeError := example_serializeError;
     array_like := example_array_like |}.

(** A connector over a socket that either takes every message or refuses
    every message. *)
Record socket : Type := new_socket {
  base : ConnectorBase.t unit;
  writable : bool
}.

Definition socket_error : value := VError (new_Error "socket is not writable").

Definition derived : Derived socket :=
  {| constructor_name := fun s => ConnectorBase.class_name (base s);
     inspectReady := fun s => ConnectorBase.inspectReady (base s);
     sendData := fun s _ =>
       (s, if writable s then Normal tt else Throw socket_error) |}.

Definition connector (state : Z) (writable : bool) (provider : value)
    : @Communicator socket :=
  super provider
    (new_socket (ConnectorBase.make "WebSocketConnector" tt state) writable).

(** An open connector that serves [provider]. *)
Definition online : @frame socket :=
  new_frame 0 (connector ConnectorBase.State.OPEN true provider).

(** The same connector before [connect]. *)
Definition offline : @frame socket :=
  new_frame 0 (connector ConnectorBase.State.NONE true provider).

(** An open connector whose socket refuses every message. *)
Definition jammed : @frame socket :=
  new_frame 0 (connector ConnectorBase.State.OPEN false provider).

(** [online] with two calls outstanding, 1 and 2, of promises 10 and 20. *)
Definition busy : @frame socket :=
  new_frame 2
    (new_Communicator provider
       [(1, new_Pair (resolve_of 10) (reject_of 10));
        (2, new_Pair (resolve_of 20) (reject_of 20))]
       [ConditionVariable.new_waiter 7 false;
        ConditionVariable.new_waiter 8 true]
       (new_socket (ConnectorBase.make "WebSocketConnector" tt
                      ConnectorBase.State.OPEN) true)).

(** An open connector that serves [vault]. *)
Definition vaulted : @frame socket :=
  new_frame 0 (connector ConnectorBase.State.OPEN true vault).

(** An open connector whose provider was never installed. *)
Definition unprovided : @frame socket :=
  new_frame 0 (connector ConnectorBase.State.OPEN true VUndefined).

(** A session: one connector, three calls, and the reply to the first. *)
Definition session : list (@action socket) :=
  [ANew provider
     (new_socket (ConnectorBase.make "WebSocketConnector" tt
                    ConnectorBase.State.OPEN) true);
   ACall 0 "echo" [VNumber 1] 10;
   ACall 0 "math.add" [VNumber 2; VNumber 3] 20;
   AReply 0 (Invoke.Return (Invoke.IReturn.make 1 true (VNumber 1)));
   ACall 0 "echo" [] 30].

Definition call (uid : Z) (listener : string) (args : list value)
    : Invoke.IFunction.t :=
  {| Invoke.IFunction.uid := uid;
     Invoke.IFunction.listener := listener;
     Invoke.IFunction.parameters :=
       map (fun p => Invoke.IParameter.make (typeof p) p) args |}.

End Example.

(* ================================================================== *)
(** ** The specification's words, where a statement needs them *)
(* ================================================================== *)

(** The table of section 4.8: the hint [inspectReady] gives in a state
    other than [OPEN]. *)
Definition state_hint (state : Z) : string :=
  if (state =? ConnectorBase.State.NONE)%Z then "connect first."
  else if (state =? ConnectorBase.State.CONNECTING)%Z
    then "it's on connecting, wait for a second."
  else if (state =? ConnectorBase.State.CLOSING)%Z
    then "the connection is on closing."
  else if (state =? ConnectorBase.State.CLOSED)%Z
    then "the connection has been closed."
  else "unknown error, but not connected.".

(** Section 4.5: the call message an invocation [(x, y, ...)] on the path
    [listener] must produce. *)
Definition call_message (uid : Z) (listener : string) (args : list value)
    : Invoke.t :=
  Invoke.Function
    {| Invoke.IFunction.uid := uid;
       Invoke.IFunction.listener := listener;
       Invoke.IFunction.parameters :=
         map (fun x => {| Invoke.IParameter.type := typeof x;
                          Invoke.IParameter.value := x |}) args |}.

(** Section 4.5, read for every sequence of attribute names: the reads
    [names] on the driver give something whose invocation on [args] hands
    exactly one message to [sendData], the call message of the dot-joined
    path. *)
Definition driver_call_as_stated {host : Host} {Sub : Type}
    {derived : Derived Sub} (names : list string) (args : list value)
    (resolve reject : FunctionLike) (s : @frame Sub) : Prop :=
  exists n uid,
    driver_path names = Some (Normal n)
    /\ sent (emitted (node_call n args resolve reject s))
       = [call_message uid (String.concat "." names) args].

(** Section 7, dispatch errors before the user function runs: the errors
    the dispatch engine itself raises for a missing provider or while it
    walks the path. *)
Inductive dispatch_error (listener : string) : Error.t -> Prop :=
| provider_unspecified : dispatch_error listener error_unspecified
| provider_would_not_be : dispatch_error listener error_would_not_be
| member_of_nothing (thisArg : value) (name : string) :
    dispatch_error listener (error_reading thisArg name)
| access_starting : dispatch_error listener (error_starting listener)
| access_ending : dispatch_error listener (error_ending listener)
| access_toString : dispatch_error listener (error_toString listener)
| access_reserved (name : string) :
    name = "constructor" \/ name = "prototype" ->
    dispatch_error listener (error_reserved name listener).

(** Section 8, access filter: a segment starting or ending in [_], or
    equal to [constructor] or [prototype]. *)
Definition private_segment (name : string) : Prop :=
  first_char name = Some "_"%char
  \/ last_char name = Some "_"%char
  \/ name = "constructor"
  \/ name = "prototype".

(** The segments the access filter stops at: the private ones, and
    "toString" when the member it resolves to, after the segments [pre],
    is [Function.toString]. *)
Definition filtered {host : Host} (listener : string) (provider : value)
    (pre : list string) (name : string) : Prop :=
  private_segment name
  \/ (name = "toString"
      /\ forall found func,
           fst (walk listener pre VUndefined provider) = Normal found ->
           fst (get_member (snd found) "toString") = Normal func ->
           is_Function_toString func = true).

(** No [bind] of its own stands in for [target]: where [target] has
    members at all, its member [bind] is a data property (or is missing),
    and is the built-in of functions or cannot be called. *)
Definition no_own_bind {host : Host} (target : value) : Prop :=
  match target with
  | VUndefined | VNull => True
  | _ =>
      accessor target "bind" = None
      /\ (is_Function_bind (member target "bind") = true
          \/ callable (member target "bind") = false)
  end.

(** The functions [evs] shows called: with the message's parameters, or
    as a [bind] of the provider's own. *)
Definition function_calls (evs : list event) : list event :=
  filter (fun ev => match ev with
                    | EvProvider _ _ _ | EvOwnBind _ _ _ => true
                    | _ => false
                    end) evs.

(** The members [evs] shows read through code of the provider. *)
Definition getters (evs : list event) : list (value * string) :=
  flat_map (fun ev => match ev with
                      | EvGetter thisArg name => [(thisArg, name)]
                      | _ => []
                      end) evs.

(** Section 4.6, step 4: "[serialize] is C2 when [err] is an error instance
    and is identity otherwise". *)
Definition serialize {host : Host} (err : value) : value :=
  if instanceof_Error err then serializeError err else err.

Definition negative_return {host : Host} (uid : Z) (err : value) : Invoke.t :=
  Invoke.Return
    {| Invoke.IReturn.uid := uid;
       Invoke.IReturn.success := false;
       Invoke.IReturn.value := serialize err |}.

(** Section 4.6, step 4, read for every incoming call message: [replyData]
    does not throw, and whatever value the dispatch of the message fails
    with, the negative return carrying it is sent. *)
Definition dispatch_as_stated {host : Host} {Sub : Type}
    {derived : Derived Sub} (invoke : Invoke.IFunction.t) (s : @frame Sub)
    : Prop :=
  let r := replyData (Invoke.Function invoke) s in
  outcome r = Normal tt
  /\ forall exn,
       outcome (find_and_call invoke s) = Throw exn ->
       In (negative_return (Invoke.IFunction.uid invoke) exn)
          (sent (emitted r)).

(** No promise was left to reject unhandled. *)
Definition all_handled (evs : list event) : Prop :=
  forall exn, ~ In (EvUnhandledRejection exn) evs.

(** The attribute names a function node treats like any other. *)
Definition plain_attribute (attr : string) : Prop :=
  attr <> "bind" /\ attr <> "call" /\ attr <> "apply".




(* ================================================================== *)
(** ** Invariants *)
(* ================================================================== *)

(** A method that mints nothing: the counter keeps its value, no call
    message is sent, and the table gains no key. *)
Definition quiet {Sub : Type} {A : Type} (m : @M Sub A) : Prop :=
  forall s,
    SEQUENCE (after (m s)) = SEQUENCE s
    /\ minted (emitted (m s)) = []
    /\ incl (HashMap.keys (promises_ (this (after (m s)))))
            (HashMap.keys (promises_ (this s)))
    /\ (NoDup (HashMap.keys (promises_ (this s))) ->
        NoDup (HashMap.keys (promises_ (this (after (m s)))))).

(** The table of a communicator, in a process whose counter is [N]: its
    keys are distinct and none is above [N]. *)
Definition table_ok {Sub : Type} (N : Z) (c : @Communicator Sub) : Prop :=
  NoDup (HashMap.keys (promises_ c))
  /\ Forall (fun k => k <= N) (HashMap.keys (promises_ c)).

Definition process_ok {Sub : Type} (p : @process Sub) : Prop :=
  Forall (table_ok (static_SEQUENCE p)) (objects p).

(* ================================================================== *)
(** ** Further vocabulary *)
(* ================================================================== *)

(** No character of [s] is a dot. *)
Fixpoint dot_free (s : string) : bool :=
  match s with
  | EmptyString => true
  | String c rest => negb (Ascii.eqb c "."%char) && dot_free rest
  end.

(** The uids outstanding in a process, communicator after communicator. *)
Definition outstanding {Sub : Type} (p : @process Sub) : list Z :=
  flat_map (fun c => HashMap.keys (promises_ c)) (objects p).

(** The outstanding uids are pairwise distinct and none is above the
    counter. *)
Definition pool_ok {Sub : Type} (p : @process Sub) : Prop :=
  NoDup (outstanding p)
  /\ Forall (fun k => k <= static_SEQUENCE p) (outstanding p).

(** The parameter values of a call message, which is what the callee
    reads of [parameters]. *)
Definition parameter_values (invoke : Invoke.IFunction.t) : list value :=
  map Invoke.IParameter.value (Invoke.IFunction.parameters invoke).

(** A connector that is nothing but [ConnectorBase] over a transport that
    takes every message. *)
Module ExampleBase.

Definition accept (this : ConnectorBase.t unit) (invoke : Invoke.t)
    : ConnectorBase.t unit * completion unit :=
  (this, Normal tt).

Definition derived : Derived (ConnectorBase.t unit) :=
  ConnectorBase.derived accept.

Definition connector (state : Z) : @frame (ConnectorBase.t unit) :=
  new_frame 0
    (new_Communicator Example.provider HashMap.empty ConditionVariable.empty
       (ConnectorBase.make "SharedWorkerConnector" tt state)).

(** Two connectors of one process, with calls issued on both. *)
Definition pair_session : list (@action (ConnectorBase.t unit)) :=
  [ANew Example.provider
     (ConnectorBase.make "SharedWorkerConnector" tt ConnectorBase.State.OPEN);
   ANew VNull
     (ConnectorBase.make "WebSocketConnector" tt ConnectorBase.State.OPEN);
   ACall 0 "echo" [VNumber 1] 10;
   ACall 1 "echo" [VNumber 2] 20;
   ACall 0 "math.add" [] 30].

End ExampleBase.

(** The promise a continuation belongs to. *)
Definition promise_of (f : FunctionLike) : nat :=
  match f with
  | resolve_of promise => promise
  | reject_of promise => promise
  end.

(** The promises settled by the events, in order: one for each call of a
    continuation. *)
Fixpoint settled (evs : list event) : list nat :=
  match evs with
  | [] => []
  | EvContinue f _ :: rest => promise_of f :: settled rest
  | _ :: rest => settled rest
  end.

(** The promises the driver calls of a sequence of actions are issued
    for. *)
Fixpoint issued {Sub : Type} (acts : list (@action Sub)) : list nat :=
  match acts with
  | [] => []
  | ACall _ _ _ promise :: rest => promise :: issued rest
  | _ :: rest => issued rest
  end.

(** The promises that wait in a table, and in a process. *)
Definition waiting (m : HashMap.t) : list nat :=
  map (fun entry => promise_of (second (snd entry))) m.

Definition pending {Sub : Type} (p : @process Sub) : list nat :=
  flat_map (fun c => waiting (promises_ c)) (objects p).

(** The two continuations of every entry are those of one promise. *)
Definition paired (m : HashMap.t) : Prop :=
  Forall (fun entry => promise_of (first (snd entry))
                       = promise_of (second (snd entry))) m.

(** What a method does to the ledger of promises: the promises it settles
    together with those left waiting are those that waited before, and
    possibly the one promise [new] it was given. *)
Definition books {Sub : Type} {A : Type} (new : list nat) (m : @M Sub A)
    : Prop :=
  forall s,
    paired (promises_ (this s)) ->
    paired (promises_ (this (after (m s))))
    /\ exists extra,
         (extra = [] \/ extra = new)
         /\ Permutation
              (settled (emitted (m s))
               ++ waiting (promises_ (this (after (m s)))))
              (extra ++ waiting (promises_ (this s))).

(** The tables of a process hold paired continuations only. *)
Definition all_paired {Sub : Type} (p : @process Sub) : Prop :=
  Forall (fun c => paired (promises_ c)) (objects p).

(* ================================================================== *)
(** ** ConnectorBase: the lifecycle gate *)
(* ================================================================== *)

Lemma contains_intro (pre s post : string) : contains s (pre +++ s +++ post).
Proof. exists pre, post. reflexivity. Qed.

Lemma append_assoc (a b c : string) : (a +++ b) +++ c = a +++ b +++ c.
Proof. induction a as [|ch a IH]; simpl; [reflexivity | now rewrite IH]. Qed.

Lemma append_nil_r (a : string) : a +++ "" = a.
Proof. induction a as [|ch a IH]; simpl; [reflexivity | now rewrite IH]. Qed.

Lemma diagnostic_message {Header : Type} (this : ConnectorBase.t Header)
    (method hint : string) :
  let e := ConnectorBase.diagnostic this method hint in
  Error.message e =
    "Error on " +++ ConnectorBase.class_name this +++ "." +++ method +++
    "(): " +++ hint
  /\ contains (ConnectorBase.class_name this) (Error.message e)
  /\ contains method (Error.message e)
  /\ contains hint (Error.message e).
Proof.
  cbv zeta. unfold ConnectorBase.diagnostic, new_Error. cbn [Error.message].
  repeat split.
  - apply contains_intro.
  - exists ("Error on " +++ ConnectorBase.class_name this +++ "."), ("(): " +++ hint).
    now rewrite !append_assoc.
  - exists ("Error on " +++ ConnectorBase.class_name this +++ "." +++ method +++ "(): "), "".
    now rewrite !append_assoc, append_nil_r.
Qed.

(** C8.  A connector starts in [NONE].  [inspectReady method] is [null]
    exactly in the state [OPEN]; in any other state it is an [Error] whose
    message is "Error on <subclass>.<method>(): <hint>", so it contains the
    name of the concrete subclass, the method name, and the hint of that
    state: "connect first." for NONE, "it's on connecting, wait for a
    second." for CONNECTING, "the connection is on closing." for CLOSING,
    "the connection has been closed." for CLOSED, and "unknown error, but
    not connected." for any other value. *)
Theorem inspectReady_gate {Header : Type} (cls : string) (header : Header)
    (provider : value) (this : ConnectorBase.t Header) (method : string) :
  ConnectorBase.state (sub_ (ConnectorBase.constructor cls header provider))
    = ConnectorBase.State.NONE
  /\ (ConnectorBase.inspectReady this method = None
      <-> ConnectorBase.state this = ConnectorBase.State.OPEN)
  /\ match ConnectorBase.inspectReady this method with
     | None => ConnectorBase.state this = ConnectorBase.State.OPEN
     | Some e =>
         ConnectorBase.state this <> ConnectorBase.State.OPEN
         /\ Error.message e =
              "Error on " +++ ConnectorBase.class_name this +++ "." +++
              method +++ "(): " +++ state_hint (ConnectorBase.state this)
         /\ contains (ConnectorBase.class_name this) (Error.message e)
         /\ contains method (Error.message e)
         /\ contains (state_hint (ConnectorBase.state this)) (Error.message e)
     end.
Proof.
  split; [reflexivity|].
  unfold ConnectorBase.inspectReady, ConnectorBase.state, state_hint.
  destruct (Z.eqb_spec (ConnectorBase.state_ this) ConnectorBase.State.OPEN)
    as [Hopen | Hopen].
  - split; [tauto | assumption].
  - assert (Hhint : forall hint,
      ConnectorBase.state_ this <> ConnectorBase.State.OPEN
      /\ Error.message (ConnectorBase.diagnostic this method hint) =
           "Error on " +++ ConnectorBase.class_name this +++ "." +++
           method +++ "(): " +++ hint
      /\ contains (ConnectorBase.class_name this)
           (Error.message (ConnectorBase.diagnostic this method hint))
      /\ contains method
           (Error.message (ConnectorBase.diagnostic this method hint))
      /\ contains hint
           (Error.message (ConnectorBase.diagnostic this method hint))).
    { intro hint. split; [assumption | apply diagnostic_message]. }
    repeat match goal with
           | |- context [Z.eqb ?a ?b] => destruct (Z.eqb a b)
           end;
      (split; [split; [discriminate | tauto] | apply Hhint]).
Qed.

Example inspectReady_NONE :
  ConnectorBase.inspectReady
    (ConnectorBase.make "WebSocketConnector" tt ConnectorBase.State.NONE) "join"
  = Some (new_Error "Error on WebSocketConnector.join(): connect first.").
Proof. reflexivity. Qed.

Example inspectReady_other :
  ConnectorBase.inspectReady (ConnectorBase.make "WorkerConnector" tt 9) "close"
  = Some (new_Error
      "Error on WorkerConnector.close(): unknown error, but not connected.").
Proof. reflexivity. Qed.

(* ================================================================== *)
(** ** The pending-call table *)
(* ================================================================== *)

Lemma find_In (key : Z) (m : HashMap.t) (it : Pair) :
  HashMap.find key m = Some it -> In (key, it) m.
Proof.
  induction m as [|[k v] rest IH]; simpl; [discriminate|].
  destruct (Z.eqb_spec k key) as [-> | Hne].
  - intros [= ->]. now left.
  - intro H. right. now apply IH.
Qed.

Lemma find_None_keys (key : Z) (m : HashMap.t) :
  HashMap.find key m = None <-> ~ In key (HashMap.keys m).
Proof.
  induction m as [|[k v] rest IH]; simpl.
  - tauto.
  - destruct (Z.eqb_spec k key) as [-> | Hne].
    + split; [discriminate | intro H; exfalso; apply H; now left].
    + rewrite IH. split.
      * intros H [Heq | Hin]; [now apply Hne | now apply H].
      * intros H Hin. apply H. now right.
Qed.

Lemma erase_length (key : Z) (m : HashMap.t) (it : Pair) :
  HashMap.find key m = Some it ->
  S (List.length (HashMap.erase key m)) = List.length m.
Proof.
  induction m as [|[k v] rest IH]; simpl; [discriminate|].
  destruct (Z.eqb_spec k key) as [-> | Hne]; [reflexivity|].
  intro H. simpl. now rewrite IH.
Qed.

Lemma erase_keys_incl (key : Z) (m : HashMap.t) :
  incl (HashMap.keys (HashMap.erase key m)) (HashMap.keys m).
Proof.
  induction m as [|[k v] rest IH]; simpl; [apply incl_refl|].
  destruct (Z.eqb_spec k key) as [-> | Hne].
  - apply incl_tl, incl_refl.
  - simpl. apply incl_cons; [now left | now apply incl_tl].
Qed.

Lemma erase_NoDup (key : Z) (m : HashMap.t) :
  NoDup (HashMap.keys m) -> NoDup (HashMap.keys (HashMap.erase key m)).
Proof.
  induction m as [|[k v] rest IH]; simpl; [trivial|].
  intro H. inversion H as [|? ? Hnotin Hrest]; subst.
  destruct (Z.eqb_spec k key) as [-> | Hne]; [assumption|].
  simpl. constructor; [|now apply IH].
  intro Hin. apply Hnotin. now apply (erase_keys_incl key rest).
Qed.

(** On a table whose keys are distinct, erasing a key leaves no entry
    under it. *)
Lemma erase_find_same (key : Z) (m : HashMap.t) :
  NoDup (HashMap.keys m) -> HashMap.find key (HashMap.erase key m) = None.
Proof.
  induction m as [|[k v] rest IH]; simpl; [trivial|].
  intro H. inversion H as [|? ? Hnotin Hrest]; subst.
  destruct (Z.eqb_spec k key) as [-> | Hne].
  - now apply find_None_keys.
  - simpl. destruct (Z.eqb_spec k key); [contradiction | now apply IH].
Qed.

Lemma erase_find_other (key k : Z) (m : HashMap.t) :
  k <> key -> HashMap.find k (HashMap.erase key m) = HashMap.find k m.
Proof.
  intro Hne. induction m as [|[k' v] rest IH]; simpl; [trivial|].
  destruct (Z.eqb_spec k' key) as [-> | Hne'].
  - destruct (Z.eqb_spec key k); [now subst | reflexivity].
  - simpl. destruct (Z.eqb_spec k' k); [reflexivity | apply IH].
Qed.

Lemma emplace_fresh (key : Z) (v : Pair) (m : HashMap.t) :
  ~ In key (HashMap.keys m) -> HashMap.emplace key v m = m ++ [(key, v)].
Proof.
  intro H. unfold HashMap.emplace, HashMap.has.
  apply find_None_keys in H. now rewrite H.
Qed.

Lemma emplace_NoDup (key : Z) (v : Pair) (m : HashMap.t) :
  NoDup (HashMap.keys m) -> NoDup (HashMap.keys (HashMap.emplace key v m)).
Proof.
  intro H. unfold HashMap.emplace, HashMap.has.
  destruct (HashMap.find key m) eqn:Hfind; [assumption|].
  unfold HashMap.keys. rewrite map_app. simpl.
  apply find_None_keys in Hfind.
  apply NoDup_app; [assumption | repeat constructor; intros [] | ].
  intros a Hin [<- | []]. now apply Hfind.
Qed.

(* ================================================================== *)
(** ** Call issuance, replies and teardown *)
(* ================================================================== *)

Ltac run_monad :=
  unfold set_promises_, set_join_cv_, set_provider_, detached,
    catch_and_drop, try_catch, bind, ret, throw, lift, lift_traced, emit,
    get_this,
    set_this in *;
  cbn [outcome after emitted this SEQUENCE provider_ promises_ join_cv_ sub_]
    in *.

Section Properties.

Context {host : Host} {Sub : Type} {derived : Derived Sub}.

Implicit Types (s : @frame Sub) (c : @Communicator Sub).

Lemma for_of_emit {A : Type} (xs : list A) (f : A -> event) s :
  for_of xs (fun x s' => new_result (Normal tt) s' [f x]) s
  = new_result (Normal tt) s (map f xs).
Proof.
  induction xs as [|x rest IH]; simpl; [reflexivity|].
  run_monad. rewrite IH. reflexivity.
Qed.

Lemma _Call_function_gated (name : string) (params : list value)
    (resolve reject : FunctionLike) s (error : Error.t) :
  inspectReady (sub_ (this s)) "Communicator._Call_fuction" = Some error ->
  _Call_function name params resolve reject s
  = new_result (Normal tt) s [EvContinue reject (VError error)].
Proof.
  intros Hready. unfold _Call_function. run_monad.
  rewrite Hready. run_monad. reflexivity.
Qed.

(** C5.  When [inspectReady] returns an error, [_Call_function] calls the
    [reject] of the promise it returns with exactly that error and does
    nothing else: the sequence counter keeps its value (no uid is
    allocated), the pending-call table and the rest of the communicator
    are unchanged, and [sendData] is not called. *)
Theorem _Call_function_not_ready (name : string) (params : list value)
    (resolve reject : FunctionLike) s (error : Error.t) :
  inspectReady (sub_ (this s)) "Communicator._Call_fuction" = Some error ->
  let r := _Call_function name params resolve reject s in
  emitted r = [EvContinue reject (VError error)]
  /\ sent (emitted r) = []
  /\ SEQUENCE (after r) = SEQUENCE s
  /\ promises_ (this (after r)) = promises_ (this s)
  /\ after r = s
  /\ outcome r = Normal tt.
Proof.
  intros Hready r. subst r.
  rewrite (_Call_function_gated name params resolve reject s error Hready).
  repeat split; reflexivity.
Qed.

(** C6.  An incoming [IReturn{uid, success, value}] never throws.  When
    [uid] is not in the pending-call table nothing happens and the state is
    unchanged.  When it is, its entry is erased from the table (one entry
    less, the other fields untouched) and exactly one continuation is
    called, with [value]: [resolve] when [success] is true, [reject] when
    it is false. *)
Theorem _Handle_return_settles (invoke : Invoke.IReturn.t) s :
  let r := replyData (Invoke.Return invoke) s in
  let uid := Invoke.IReturn.uid invoke in
  outcome r = Normal tt
  /\ SEQUENCE (after r) = SEQUENCE s
  /\ provider_ (this (after r)) = provider_ (this s)
  /\ join_cv_ (this (after r)) = join_cv_ (this s)
  /\ sub_ (this (after r)) = sub_ (this s)
  /\ match HashMap.find uid (promises_ (this s)) with
     | None => after r = s /\ emitted r = []
     | Some it =>
         In (uid, it) (promises_ (this s))
         /\ promises_ (this (after r)) = HashMap.erase uid (promises_ (this s))
         /\ S (List.length (promises_ (this (after r))))
              = List.length (promises_ (this s))
         /\ emitted r =
              [EvContinue
                 (if Invoke.IReturn.success invoke then first it else second it)
                 (Invoke.IReturn.value invoke)]
     end.
Proof.
  cbv zeta. unfold replyData, _Handle_return. run_monad.
  destruct (HashMap.find (Invoke.IReturn.uid invoke) (promises_ (this s)))
    as [it|] eqn:Hfind; run_monad.
  - repeat split; try reflexivity.
    + now apply find_In.
    + now apply erase_length with (it := it).
  - repeat split; reflexivity.
Qed.

Lemma destructor_run (error : option Error.t) s :
  destructor error s
  = new_result (Normal tt)
      (new_frame (SEQUENCE s)
         (new_Communicator (provider_ (this s)) [] [] (sub_ (this s))))
      (map (fun entry =>
              EvContinue (second (snd entry))
                (VError (match error with
                         | Some supplied => supplied
                         | None => new_Error "Connection has been closed."
                         end)))
           (promises_ (this s))
       ++ map (fun w => EvWake (ConditionVariable.ticket w)
                          (ConditionVariable.released w))
              (join_cv_ (this s))).
Proof.
  unfold destructor, notify_all. run_monad.
  rewrite for_of_emit. run_monad.
  rewrite for_of_emit. run_monad.
  cbn [app]. now rewrite !app_nil_r.
Qed.

(** C4.  The destructor calls the [reject] of every entry of the
    pending-call table, in the order of the table, with the error it was
    given, or with [new Error("Connection has been closed.")] when it was
    given none; then the table is empty; then [notify_all] releases every
    waiter of the join coordinator, a [join()] with [undefined] and a timed
    [join] with [true], and no waiter is left.  It never throws and sends
    nothing. *)
Theorem destructor_rejects_and_wakes (error : option Error.t) s :
  let r := destructor error s in
  let rejectError :=
    match error with
    | Some supplied => supplied
    | None => {| Error.name := "Error";
                 Error.message := "Connection has been closed." |}
    end in
  outcome r = Normal tt
  /\ emitted r =
       map (fun entry => EvContinue (second (snd entry)) (VError rejectError))
           (promises_ (this s))
       ++ map (fun w => EvWake (ConditionVariable.ticket w)
                          (if ConditionVariable.timed w
                           then VBoolean true else VUndefined))
              (join_cv_ (this s))
  /\ sent (emitted r) = []
  /\ promises_ (this (after r)) = []
  /\ join_cv_ (this (after r)) = []
  /\ provider_ (this (after r)) = provider_ (this s)
  /\ sub_ (this (after r)) = sub_ (this s)
  /\ SEQUENCE (after r) = SEQUENCE s.
Proof.
  cbv zeta. rewrite destructor_run. cbn [outcome emitted after this
    SEQUENCE provider_ promises_ join_cv_ sub_].
  repeat split; try (destruct error; reflexivity).
  induction (promises_ (this s)) as [|entry rest IH]; cbn [map app sent];
    [|exact IH].
  induction (join_cv_ (this s)) as [|w rest IH]; cbn [map sent];
    [reflexivity | exact IH].
Qed.

End Properties.

(* ================================================================== *)
(** ** The driver *)
(* ================================================================== *)

Lemma concat_extend (a b : string) (rest : list string) :
  String.concat "." ((a +++ "." +++ b) :: rest)
  = String.concat "." (a :: b :: rest).
Proof.
  destruct rest as [|c rest]; simpl; [reflexivity|].
  now rewrite !append_assoc.
Qed.

Lemma _Proxy_func_get_plain (name attr : string) :
  plain_attribute attr ->
  _Proxy_func_get name attr = NProxy (name +++ "." +++ attr).
Proof.
  intros (Hbind & Hcall & Happly). unfold _Proxy_func_get.
  apply String.eqb_neq in Hbind, Hcall, Happly.
  now rewrite Hbind, Hcall, Happly.
Qed.

Lemma node_path_plain (name : string) (rest : list string) :
  Forall plain_attribute rest ->
  node_path (NProxy name) rest
  = Some (Normal (NProxy (String.concat "." (name :: rest)))).
Proof.
  intro Hrest. revert name.
  induction Hrest as [|attr rest Hattr _ IH]; intro name; [reflexivity|].
  cbn [node_path node_get]. rewrite (_Proxy_func_get_plain _ _ Hattr).
  rewrite IH. now rewrite concat_extend.
Qed.

Section Driver.

Context {host : Host} {Sub : Type} {derived : Derived Sub}.

Implicit Types (s : @frame Sub).

Lemma _Call_function_ready (name : string) (params : list value)
    (resolve reject : FunctionLike) s :
  inspectReady (sub_ (this s)) "Communicator._Call_fuction" = None ->
  let r := _Call_function name params resolve reject s in
  let uid := increment (SEQUENCE s) in
  outcome r = Normal tt
  /\ sent (emitted r) = [call_message uid name params]
  /\ SEQUENCE (after r) = uid
  /\ promises_ (this (after r))
     = HashMap.emplace uid (new_Pair resolve reject) (promises_ (this s))
  /\ provider_ (this (after r)) = provider_ (this s)
  /\ join_cv_ (this (after r)) = join_cv_ (this s).
Proof.
  intros Hready. cbv zeta. unfold _Call_function. run_monad.
  rewrite Hready. unfold pre_increment_SEQUENCE, send. run_monad.
  destruct (sendData (sub_ (this s)) _) as [sub' [[]|exn]]; run_monad;
    repeat split; reflexivity.
Qed.

(** C3 (as amended).  Take attribute reads [d.first.rest...] on the driver
    where [first] is not "then" and none of the later names is "bind",
    "call" or "apply", and invoke the result on [args] while [inspectReady]
    returns [null].  The reads give the function node of the dot-joined
    path, and the invocation hands exactly one message to [sendData]: the
    call message with a freshly minted uid, [listener] the dot-joined path
    and [parameters] the list of [{type: typeof x, value: x}].  Reading one
    more such attribute on the node extends the dotted path. *)
Theorem driver_call_message (first : string) (rest : list string)
    (args : list value) (resolve reject : FunctionLike) s :
  first <> "then" ->
  Forall plain_attribute rest ->
  inspectReady (sub_ (this s)) "Communicator._Call_fuction" = None ->
  let listener := String.concat "." (first :: rest) in
  driver_path (first :: rest) = Some (Normal (NProxy listener))
  /\ (let r := node_call (NProxy listener) args resolve reject s in
      outcome r = Normal None
      /\ sent (emitted r)
         = [call_message (increment (SEQUENCE s)) listener args])
  /\ (forall attr, plain_attribute attr ->
        node_get (NProxy listener) attr
        = Some (Normal (NProxy (listener +++ "." +++ attr)))).
Proof.
  intros Hthen Hrest Hready listener. repeat split.
  - unfold driver_path, driver_get.
    apply String.eqb_neq in Hthen. rewrite Hthen.
    now apply node_path_plain.
  - destruct (_Call_function_ready listener args resolve reject s Hready)
      as (Hout & _). cbv zeta in Hout.
    unfold node_call. unfold bind at 1. now rewrite Hout.
  - destruct (_Call_function_ready listener args resolve reject s Hready)
      as (Hout & Hsent & _). cbv zeta in Hout, Hsent.
    unfold node_call. unfold bind at 1. rewrite Hout. unfold ret.
    cbn [emitted]. now rewrite app_nil_r.
  - intros attr Hattr. cbn [node_get].
    now rewrite (_Proxy_func_get_plain _ _ Hattr).
Qed.


End Driver.

(** C3, where it fails: [d.a.call(1, 2)] sends a call of "a" with the one
    parameter 2, not of "a.call"; [d.then] is [null], and calling it
    throws; and before the connection is open [d.a()] sends nothing. *)
Lemma driver_call_exceptions :
  ~ driver_call_as_stated (host := Example.host) (derived := Example.derived)
      ["a"; "call"] [VNumber 1; VNumber 2] (resolve_of 0) (reject_of 0)
      Example.online
  /\ ~ driver_call_as_stated (host := Example.host) (derived := Example.derived)
        ["then"] [] (resolve_of 0) (reject_of 0) Example.online
  /\ ~ driver_call_as_stated (host := Example.host) (derived := Example.derived)
        ["a"] [] (resolve_of 0) (reject_of 0) Example.offline.
Proof.
  repeat split; intros (n & uid & Hpath & Hsent);
    vm_compute in Hpath; injection Hpath as <-;
    vm_compute in Hsent; discriminate Hsent.
Qed.

Example driver_a_call :
  sent (emitted (node_call (host := Example.host) (derived := Example.derived)
                   (NCall "a") [VNumber 1; VNumber 2]
                   (resolve_of 0) (reject_of 0) Example.online))
  = [call_message 1 "a" [VNumber 2]].
Proof. reflexivity. Qed.


(* ================================================================== *)
(** ** The dispatch engine *)
(* ================================================================== *)

Lemma is_underscore_spec (c : option ascii) :
  is_underscore c = true <-> c = Some "_"%char.
Proof.
  destruct c as [c|]; simpl; [|split; discriminate].
  rewrite Ascii.eqb_eq. split; [now intros -> | now intros [= ->]].
Qed.

Lemma split_cons (sep : ascii) (s : string) : split sep s <> [].
Proof.
  destruct s as [|c rest]; simpl; [discriminate|].
  destruct (Ascii.eqb c sep); [discriminate|].
  destruct (split sep rest); discriminate.
Qed.

Section Dispatch.

Context {host : Host} {Sub : Type} {derived : Derived Sub}.

Implicit Types (s : @frame Sub) (invoke : Invoke.IFunction.t).

Lemma sent_app (evs1 evs2 : list event) :
  sent (evs1 ++ evs2) = sent evs1 ++ sent evs2.
Proof.
  induction evs1 as [|ev evs1 IH]; [reflexivity|].
  destruct ev; simpl; now rewrite IH.
Qed.

Lemma all_handled_app (evs1 evs2 : list event) :
  all_handled evs1 -> all_handled evs2 -> all_handled (evs1 ++ evs2).
Proof.
  intros H1 H2 exn Hin. apply in_app_or in Hin as [Hin | Hin];
    [now apply (H1 exn) | now apply (H2 exn)].
Qed.

Lemma all_handled_send (invoke : Invoke.t) : all_handled [EvSend invoke].
Proof. intros exn [Hin | []]. discriminate Hin. Qed.

Lemma all_handled_continue (f : FunctionLike) (v : value) :
  all_handled [EvContinue f v].
Proof. intros exn [Hin | []]. discriminate Hin. Qed.

Lemma all_handled_nil : all_handled [].
Proof. intros exn []. Qed.

Lemma provider_calls_app (evs1 evs2 : list event) :
  provider_calls (evs1 ++ evs2) = provider_calls evs1 ++ provider_calls evs2.
Proof.
  induction evs1 as [|ev evs1 IH]; [reflexivity|].
  destruct ev; simpl; now rewrite IH.
Qed.

Lemma walk_app (listener : string) (pre rest : list string)
    (thisArg func : value) :
  walk listener (pre ++ rest) thisArg func
  = match walk listener pre thisArg func with
    | (Normal found, ran) =>
        (fst (walk listener rest (fst found) (snd found)),
         ran ++ snd (walk listener rest (fst found) (snd found)))
    | (Throw exn, ran) => (Throw exn, ran)
    end.
Proof.
  revert thisArg func.
  induction pre as [|name pre IH]; intros thisArg func.
  - cbn [app walk fst snd]. now destruct (walk listener rest thisArg func).
  - cbn [app walk].
    destruct (get_member func name) as [[func'|exn] ran]; [|reflexivity].
    destruct (security_error listener name func'); [reflexivity|].
    rewrite IH.
    destruct (walk listener pre func func') as [[found|exn] ran'];
      cbn [fst snd]; [|reflexivity].
    now rewrite app_assoc.
Qed.

(** Reading a member runs at most the accessor of that member; where no
    accessor runs, the only failure is the engine's [TypeError] of reading
    a member of [undefined] or [null]. *)
Lemma get_member_ran (thisArg : value) (name : string) :
  snd (get_member thisArg name) = []
  \/ snd (get_member thisArg name) = [EvGetter thisArg name].
Proof.
  unfold get_member.
  destruct thisArg; cbn [snd]; auto;
    destruct (accessor _ name); cbn [snd]; auto.
Qed.

Lemma get_member_throws (thisArg : value) (name : string) (exn : value) :
  fst (get_member thisArg name) = Throw exn ->
  getters (snd (get_member thisArg name)) = [] ->
  exn = VError (error_reading thisArg name).
Proof.
  unfold get_member.
  destruct thisArg; cbn [fst snd]; try congruence;
    destruct (accessor _ name); cbn [fst snd getters flat_map];
    discriminate.
Qed.

Lemma function_calls_app (evs1 evs2 : list event) :
  function_calls (evs1 ++ evs2) = function_calls evs1 ++ function_calls evs2.
Proof. apply filter_app. Qed.

Lemma getters_app (evs1 evs2 : list event) :
  getters (evs1 ++ evs2) = getters evs1 ++ getters evs2.
Proof. apply flat_map_app. Qed.

Lemma get_member_calls (thisArg : value) (name : string) :
  function_calls (snd (get_member thisArg name)) = [].
Proof. now destruct (get_member_ran thisArg name) as [-> | ->]. Qed.

Lemma security_error_dispatch (listener name : string) (func : value)
    (e : Error.t) :
  security_error listener name func = Some e -> dispatch_error listener e.
Proof.
  unfold security_error.
  destruct (is_underscore (first_char name)); [intros [= <-]; constructor|].
  destruct (is_underscore (last_char name)); [intros [= <-]; constructor|].
  destruct ((name =? "toString") && is_Function_toString func);
    [intros [= <-]; constructor|].
  destruct (orb _ _) eqn:Hres; [|discriminate].
  intros [= <-]. constructor.
  apply orb_true_iff in Hres. now rewrite !String.eqb_eq in Hres.
Qed.

(** The walk calls no function: the only code of the provider it runs is
    that of accessors. *)
Lemma walk_calls (listener : string) (routes : list string)
    (thisArg func : value) :
  function_calls (snd (walk listener routes thisArg func)) = [].
Proof.
  revert thisArg func.
  induction routes as [|name routes IH]; intros thisArg func; [reflexivity|].
  cbn [walk]. pose proof (get_member_calls func name) as Hget.
  destruct (get_member func name) as [[func'|exn] ran]; cbn [snd] in *;
    [|exact Hget].
  destruct (security_error listener name func'); cbn [snd]; [exact Hget|].
  now rewrite function_calls_app, Hget, IH.
Qed.

(** Where no accessor ran, whatever the walk throws is an error the engine
    raised. *)
Lemma walk_throws (listener : string) (routes : list string)
    (thisArg func exn : value) :
  fst (walk listener routes thisArg func) = Throw exn ->
  getters (snd (walk listener routes thisArg func)) = [] ->
  exists e, exn = VError e /\ dispatch_error listener e.
Proof.
  revert thisArg func.
  induction routes as [|name routes IH]; intros thisArg func; [discriminate|].
  cbn [walk].
  pose proof (get_member_throws func name) as Hget.
  destruct (get_member func name) as [[func'|exn'] ran]; cbn [fst snd] in *.
  - destruct (security_error listener name func') as [e|] eqn:Hsec;
      cbn [fst snd].
    + intros [= <-] _. exists e. split; [reflexivity|].
      now apply security_error_dispatch with (name := name) (func := func').
    + rewrite getters_app. intros Hthrow Hnone.
      apply app_eq_nil in Hnone as [_ Hnone]. now apply IH with func func'.
  - intros [= <-] Hnone. rewrite (Hget exn' eq_refl Hnone).
    eexists. split; [reflexivity | constructor].
Qed.

(** A private segment stops the walk, whatever the member is. *)
Lemma security_error_private (listener name : string) (func : value) :
  private_segment name ->
  exists e, security_error listener name func = Some e.
Proof.
  intros Hprivate. unfold security_error.
  destruct (is_underscore (first_char name)) eqn:Hfirst; [eauto|].
  destruct (is_underscore (last_char name)) eqn:Hlast; [eauto|].
  destruct ((name =? "toString") && is_Function_toString func); [eauto|].
  destruct Hprivate as [H | [H | [-> | ->]]].
  - apply is_underscore_spec in H. congruence.
  - apply is_underscore_spec in H. congruence.
  - simpl. eauto.
  - simpl. eauto.
Qed.

Lemma security_error_toString (listener : string) (func : value) :
  is_Function_toString func = true ->
  exists e, security_error listener "toString" func = Some e.
Proof. intro H. unfold security_error. simpl. rewrite H. eauto. Qed.

(** The walk does not get past a segment the filter stops at. *)
Lemma walk_filtered (listener : string) (provider : value)
    (pre post : list string) (name : string) :
  filtered listener provider pre name ->
  exists exn,
    fst (walk listener (pre ++ name :: post) VUndefined provider) = Throw exn.
Proof.
  intros Hfiltered. rewrite walk_app.
  destruct (walk listener pre VUndefined provider) as [[found|exn] ran]
    eqn:Hpre; cbn [fst]; [|now exists exn].
  cbn [walk].
  destruct (get_member (snd found) name) as [[func|exn] ran'] eqn:Hget;
    cbn [fst]; [|now exists exn].
  assert (Hsec : exists e, security_error listener name func = Some e).
  { destruct Hfiltered as [Hprivate | [-> Hnative]].
    - now apply security_error_private.
    - apply security_error_toString. apply (Hnative found func).
      + now rewrite Hpre.
      + now rewrite Hget. }
  destruct Hsec as [e ->]. now exists (VError e).
Qed.

(** The [try] block up to the call, step by step. *)
Lemma find_and_call_unfold invoke s :
  find_and_call invoke s
  = match provider_must_be (provider_ (this s)) with
    | Throw exn => new_result (Throw exn) s []
    | Normal provider =>
        match walk (Invoke.IFunction.listener invoke)
                (split "."%char (Invoke.IFunction.listener invoke))
                VUndefined provider with
        | (Throw exn, ran) => new_result (Throw exn) s ran
        | (Normal found, ran) =>
            match bind_thisArg (snd found) (fst found) with
            | (Throw exn, ran') => new_result (Throw exn) s (ran ++ ran')
            | (Normal bound, ran') =>
                let target := bound_target bound VUndefined in
                if callable (fst target) then
                  new_result
                    (apply_function (fst target) (snd target)
                       (parameter_values invoke))
                    s
                    (ran ++ ran'
                     ++ [EvProvider (fst target) (snd target)
                           (parameter_values invoke)])
                else
                  new_result (Throw (VError (error_not_a_function "func")))
                    s (ran ++ ran')
            end
        end
    end.
Proof.
  unfold find_and_call, call_bound, parameter_values. run_monad.
  destruct (provider_must_be (provider_ (this s))) as [provider|exn];
    [|reflexivity].
  destruct (walk _ _ VUndefined provider) as [[found|exn] ran];
    cbn [fst snd app]; run_monad; [|reflexivity].
  destruct (bind_thisArg (snd found) (fst found)) as [[bound|exn] ran'];
    cbn [fst snd app]; run_monad; [|reflexivity].
  cbv zeta.
  destruct (callable (fst (bound_target bound VUndefined))); run_monad;
    [|now rewrite ?app_nil_r].
  destruct (apply_function _ _ _); cbn [app]; run_monad;
    now rewrite ?app_nil_r.
Qed.

(** What [bind] runs of the provider: the accessor of the member [bind],
    and a [bind] of the target's own. *)
Lemma bind_thisArg_ran (func thisArg : value) :
  sent (snd (bind_thisArg func thisArg)) = []
  /\ all_handled (snd (bind_thisArg func thisArg))
  /\ provider_calls (snd (bind_thisArg func thisArg)) = [].
Proof.
  unfold bind_thisArg.
  destruct (get_member_ran func "bind") as [Hran | Hran];
    destruct (get_member func "bind") as [[bind_|exn] ran];
    cbn [snd] in Hran; subst ran;
    repeat match goal with
           | |- context [if ?b then _ else _] => destruct b
           end;
    cbn [snd app sent provider_calls];
    (split; [reflexivity | split; [|reflexivity]]);
    intros exn' Hin; cbn [In] in Hin;
    repeat (destruct Hin as [Hin | Hin]; [discriminate Hin|]);
    exact Hin.
Qed.

Lemma walk_ran (listener : string) (routes : list string)
    (thisArg func : value) :
  sent (snd (walk listener routes thisArg func)) = []
  /\ all_handled (snd (walk listener routes thisArg func))
  /\ provider_calls (snd (walk listener routes thisArg func)) = [].
Proof.
  revert thisArg func.
  induction routes as [|name routes IH]; intros thisArg func.
  - cbn [walk snd]. repeat split. intros exn [].
  - cbn [walk].
    assert (Hget : sent (snd (get_member func name)) = []
                   /\ all_handled (snd (get_member func name))
                   /\ provider_calls (snd (get_member func name)) = []).
    { destruct (get_member_ran func name) as [-> | ->];
        (split; [reflexivity | split; [|reflexivity]]);
        intros exn' Hin; cbn [In] in Hin;
        repeat (destruct Hin as [Hin | Hin]; [discriminate Hin|]);
        exact Hin. }
    destruct (get_member func name) as [[func'|exn] ran]; cbn [snd] in *;
      [|exact Hget].
    destruct (security_error listener name func'); cbn [snd]; [exact Hget|].
    destruct Hget as (Hsent & Hhandled & Hcalls).
    destruct (IH func func') as (Hsent' & Hhandled' & Hcalls').
    rewrite sent_app, provider_calls_app, Hsent, Hsent', Hcalls, Hcalls'.
    split; [reflexivity | split; [|reflexivity]].
    now apply all_handled_app.
Qed.

(** Finding and calling the function changes nothing in the communicator
    and sends nothing. *)
Lemma find_and_call_frame invoke s :
  after (find_and_call invoke s) = s
  /\ sent (emitted (find_and_call invoke s)) = []
  /\ all_handled (emitted (find_and_call invoke s)).
Proof.
  rewrite find_and_call_unfold.
  destruct (provider_must_be (provider_ (this s))) as [provider|exn].
  2: { repeat split. intros exn' []. }
  pose proof (walk_ran (Invoke.IFunction.listener invoke)
                (split "."%char (Invoke.IFunction.listener invoke))
                VUndefined provider) as (Hsent & Hhandled & _).
  destruct (walk _ _ VUndefined provider) as [[found|exn] ran];
    cbn [snd] in *.
  2: { now repeat split. }
  pose proof (bind_thisArg_ran (snd found) (fst found))
    as (Hsent' & Hhandled' & _).
  destruct (bind_thisArg (snd found) (fst found)) as [[bound|exn] ran'];
    cbn [snd] in *.
  2: { cbn [after emitted]. rewrite sent_app, Hsent, Hsent'.
       split; [reflexivity | split; [reflexivity|]].
       now apply all_handled_app. }
  cbv zeta. destruct (callable _); cbn [after emitted];
    rewrite !sent_app, Hsent, Hsent';
    (split; [reflexivity | split; [reflexivity|]]);
    repeat apply all_handled_app; auto.
  intros exn' [Hin | []]. discriminate Hin.
Qed.

Lemma _Send_return_sent (uid : Z) (success : bool) (v : value) s :
  let r := _Send_return uid success v s in
  emitted r =
    [EvSend (Invoke.Return
       {| Invoke.IReturn.uid := uid;
          Invoke.IReturn.success := success;
          Invoke.IReturn.value :=
            if negb success && instanceof_Error v
            then serializeError v else v |})]
  /\ outcome r = snd (sendData (sub_ (this s))
       (Invoke.Return
          {| Invoke.IReturn.uid := uid;
             Invoke.IReturn.success := success;
             Invoke.IReturn.value :=
               if negb success && instanceof_Error v
               then serializeError v else v |})).
Proof.
  cbv zeta. unfold _Send_return, send.
  destruct (sendData (sub_ (this s)) _) as [sub' res]. split; reflexivity.
Qed.

(** What [_Handle_function] does when finding or calling the function
    fails: one negative return, carrying the failure. *)
Lemma _Handle_function_failure invoke s (exn : value) :
  outcome (find_and_call invoke s) = Throw exn ->
  emitted (_Handle_function invoke s)
  = emitted (find_and_call invoke s)
    ++ [EvSend (negative_return (Invoke.IFunction.uid invoke) exn)].
Proof.
  intro Hthrow. unfold _Handle_function. run_monad. rewrite Hthrow.
  run_monad. f_equal.
  now destruct (_Send_return_sent (Invoke.IFunction.uid invoke) false exn
                  (after (find_and_call invoke s))) as [-> _].
Qed.

Lemma filtered_not_empty (listener : string) (provider : value)
    (pre : list string) (name : string) :
  filtered listener provider pre name -> name <> "".
Proof.
  intros [[H | [H | [-> | ->]]] | [-> _]]; try discriminate;
    intros ->; discriminate H.
Qed.

Lemma filtered_has_listener invoke (provider : value)
    (pre post : list string) (name : string) :
  split "."%char (Invoke.IFunction.listener invoke) = pre ++ name :: post ->
  filtered (Invoke.IFunction.listener invoke) provider pre name ->
  truthy_string (Invoke.IFunction.listener invoke) = true.
Proof.
  intros Hsplit Hfiltered.
  destruct (Invoke.IFunction.listener invoke); [|reflexivity].
  apply filtered_not_empty in Hfiltered.
  destruct pre as [|x [|y pre]]; simpl in Hsplit; try discriminate.
  injection Hsplit as <- _. contradiction.
Qed.

Lemma catch_and_drop_run (m : M unit) s :
  emitted (catch_and_drop m s) = emitted (m s)
  /\ outcome (catch_and_drop m s) = Normal tt.
Proof.
  unfold catch_and_drop, try_catch, ret.
  destruct (m s) as [[[]|exn] a evs]; cbn [outcome after emitted];
    rewrite ?app_nil_r; auto.
Qed.

Lemma find_and_call_filtered invoke s (pre post : list string)
    (name : string) :
  split "."%char (Invoke.IFunction.listener invoke) = pre ++ name :: post ->
  filtered (Invoke.IFunction.listener invoke) (provider_ (this s)) pre name ->
  exists exn,
    outcome (find_and_call invoke s) = Throw exn
    /\ function_calls (emitted (find_and_call invoke s)) = []
    /\ (getters (emitted (find_and_call invoke s)) = [] ->
        exists e,
          exn = VError e
          /\ dispatch_error (Invoke.IFunction.listener invoke) e).
Proof.
  intros Hsplit Hfiltered. rewrite find_and_call_unfold.
  destruct (provider_ (this s)) eqn:Hprovider; cbn [provider_must_be].
  1: { exists (VError error_unspecified). split; [reflexivity|].
       split; [reflexivity|]. intros _. eexists. split; [reflexivity|].
       constructor. }
  1: { exists (VError error_would_not_be). split; [reflexivity|].
       split; [reflexivity|]. intros _. eexists. split; [reflexivity|].
       constructor. }
  all: rewrite Hsplit;
    destruct (walk_filtered _ _ pre post name Hfiltered) as (exn & Hthrow);
    match goal with
    | |- context [walk ?l ?routes VUndefined ?provider] =>
        pose proof (walk_calls l routes VUndefined provider) as Hcalls;
        pose proof (walk_throws l routes VUndefined provider exn) as Hengine
    end;
    destruct (walk _ _ VUndefined _) as [[found|exn'] ran];
    cbn [fst snd] in *; [discriminate Hthrow|];
    injection Hthrow as ->;
    exists exn; cbn [outcome emitted];
    (split; [reflexivity | split; [exact Hcalls | now apply Hengine]]).
Qed.

(** What the access filter gives on every host.  Take a call message whose
    listener, split by ".", has a segment that starts with "_", ends with
    "_", or is "constructor" or "prototype", or is "toString" where that
    member is [Function.toString].  [replyData] answers it with exactly
    one message, an [IReturn] for the same uid with [success: false], and
    calls no function, neither with the message's parameters nor as a
    [bind].  The members of the path up to that segment, the segment
    itself included, are read all the same, so their accessors run; where
    none ran, the value of the reply is the serialized error the dispatch
    engine raised (the missing provider, the access violation, or the
    [TypeError] of walking through [undefined]). *)
Lemma filter_stops_calls invoke s (pre post : list string) (name : string) :
  split "."%char (Invoke.IFunction.listener invoke) = pre ++ name :: post ->
  filtered (Invoke.IFunction.listener invoke) (provider_ (this s)) pre name ->
  let r := replyData (Invoke.Function invoke) s in
  exists exn,
    sent (emitted r) = [negative_return (Invoke.IFunction.uid invoke) exn]
    /\ function_calls (emitted r) = []
    /\ (getters (emitted r) = [] ->
        exists e,
          exn = VError e
          /\ dispatch_error (Invoke.IFunction.listener invoke) e)
    /\ outcome r = Normal tt.
Proof.
  intros Hsplit Hfiltered r. subst r.
  destruct (find_and_call_filtered invoke s pre post name Hsplit Hfiltered)
    as (exn & Hthrow & Hcalls & Hengine).
  destruct (find_and_call_frame invoke s) as (Hafter & Hsent & _).
  exists exn.
  unfold replyData. cbn [Invoke.has_listener].
  rewrite (filtered_has_listener invoke _ pre post name Hsplit Hfiltered).
  destruct (catch_and_drop_run (_Handle_function invoke) s) as [-> ->].
  rewrite (_Handle_function_failure invoke s exn Hthrow).
  rewrite sent_app, function_calls_app, getters_app, Hsent, Hcalls.
  split; [reflexivity | split; [reflexivity | split; [|reflexivity]]].
  intros Hnone. apply app_eq_nil in Hnone as [Hnone _]. auto.
Qed.

(** [replyData] on a call message never throws and leaves no rejection
    unhandled.  Where the call message reaches [_Handle_function] (its
    listener is not the empty string) and finding or calling the
    provider's function fails with a value (the provider is missing, the
    access filter rejects the path, the function throws or rejects),
    exactly one message is sent: the [IReturn] for the same uid with
    [success: false] whose value is the serialized error when the value is
    an [Error] instance and the value itself otherwise. *)
Lemma dispatch_replies invoke s :
  let r := replyData (Invoke.Function invoke) s in
  outcome r = Normal tt
  /\ all_handled (emitted r)
  /\ (Invoke.IFunction.listener invoke <> "" ->
      forall exn,
        outcome (find_and_call invoke s) = Throw exn ->
        sent (emitted r)
        = [negative_return (Invoke.IFunction.uid invoke) exn]).
Proof.
  cbv zeta. unfold replyData. cbn [Invoke.has_listener].
  destruct (find_and_call_frame invoke s) as (Hafter & Hsent & Hhandled).
  destruct (truthy_string (Invoke.IFunction.listener invoke)) eqn:Htruthy.
  - unfold _Handle_function, _Send_return, send. run_monad.
    destruct (find_and_call invoke s) as [[ret_|exn] a evs];
      cbn [outcome after emitted] in *; subst a.
    + destruct (sendData (sub_ (this s)) _) as [sub1 [[]|exn1]]; run_monad;
        [|destruct (sendData sub1 _) as [sub2 [[]|exn2]]; run_monad];
        (split; [reflexivity | split; [|discriminate]]);
        repeat apply all_handled_app;
        auto using all_handled_send, all_handled_nil.
    + destruct (sendData (sub_ (this s)) _) as [sub1 [[]|exn1]]; run_monad;
        (split; [reflexivity | split]);
        try (repeat apply all_handled_app;
             auto using all_handled_send, all_handled_nil; fail);
        intros _ exn0 [= <-]; rewrite !sent_app, Hsent; reflexivity.
  - unfold _Handle_return. run_monad.
    split; [now destruct (HashMap.find _ _) | split].
    + destruct (HashMap.find _ _); cbn [emitted app];
        auto using all_handled_continue, all_handled_nil.
    + intros Hne. destruct (Invoke.IFunction.listener invoke);
        [now elim Hne | discriminate Htruthy].
Qed.

(** C10.  When the provider's function was found and returned [ret], and
    the [sendData] of the positive return throws [exn], [_Handle_function]
    catches it and hands a second [IReturn] to [sendData], for the same
    uid, with [success: false] and the serialized [exn] ([exn] itself when
    it is not an [Error] instance): the one call message draws two return
    messages with its uid. *)
Theorem success_reply_failure invoke s (ret_ exn : value) :
  outcome (find_and_call invoke s) = Normal ret_ ->
  snd (sendData (sub_ (this s))
         (Invoke.Return
            {| Invoke.IReturn.uid := Invoke.IFunction.uid invoke;
               Invoke.IReturn.success := true;
               Invoke.IReturn.value := ret_ |})) = Throw exn ->
  let r := _Handle_function invoke s in
  sent (emitted r) =
    [Invoke.Return
       {| Invoke.IReturn.uid := Invoke.IFunction.uid invoke;
          Invoke.IReturn.success := true;
          Invoke.IReturn.value := ret_ |};
     negative_return (Invoke.IFunction.uid invoke) exn]
  /\ Forall (fun m => Invoke.uid m = Invoke.IFunction.uid invoke)
            (sent (emitted r)).
Proof.
  intros Hcall Hsend r. subst r.
  destruct (find_and_call_frame invoke s) as (Hafter & Hsent & _).
  assert (Hemitted : sent (emitted (_Handle_function invoke s)) =
    [Invoke.Return
       {| Invoke.IReturn.uid := Invoke.IFunction.uid invoke;
          Invoke.IReturn.success := true;
          Invoke.IReturn.value := ret_ |};
     negative_return (Invoke.IFunction.uid invoke) exn]).
  { unfold _Handle_function, _Send_return, send. run_monad.
    destruct (find_and_call invoke s) as [o a evs];
      cbn [outcome after emitted] in *; subst a o.
    cbn [negb andb].
    destruct (sendData (sub_ (this s)) _) as [sub1 res1].
    cbn [snd] in Hsend. subst res1. run_monad.
    destruct (sendData sub1 _) as [sub2 res2]. run_monad.
    clear -Hsent.
    induction evs as [|ev evs IH]; [reflexivity|].
    destruct ev; try discriminate Hsent; simpl in *; now apply IH. }
  split; [exact Hemitted|].
  rewrite Hemitted. repeat constructor.
Qed.

End Dispatch.

(* ================================================================== *)
(** ** The sequence counter and the uids *)
(* ================================================================== *)

Lemma increment_mono (n : Z) : n <= increment n.
Proof.
  unfold increment.
  destruct (n <=? MAX_SAFE_INTEGER)%Z; [lia|].
  destruct (n <? 2 ^ 54)%Z; [|lia].
  destruct (n mod 4 =? 0)%Z; lia.
Qed.

Lemma increment_exact (n : Z) :
  increment n <= MAX_SAFE_INTEGER -> increment n = n + 1.
Proof.
  intro Hsafe. pose proof (increment_mono n) as Hmono. unfold increment in *.
  destruct (Z.leb_spec n MAX_SAFE_INTEGER); [reflexivity | lia].
Qed.

Lemma minted_app (evs1 evs2 : list event) :
  minted (evs1 ++ evs2) = minted evs1 ++ minted evs2.
Proof.
  induction evs1 as [|ev evs1 IH]; [reflexivity|].
  destruct ev as [[f|r]| | | | | |]; simpl; now rewrite IH.
Qed.

Lemma minted_sent_nil (evs : list event) : sent evs = [] -> minted evs = [].
Proof.
  induction evs as [|ev evs IH]; [reflexivity|].
  destruct ev; simpl; try discriminate; exact IH.
Qed.

Lemma minted_continue {A : Type} (f : A -> FunctionLike) (v : value)
    (xs : list A) :
  minted (map (fun x => EvContinue (f x) v) xs) = [].
Proof. induction xs; simpl; trivial. Qed.

Lemma minted_wake {A : Type} (f : A -> nat) (g : A -> value) (xs : list A) :
  minted (map (fun x => EvWake (f x) (g x)) xs) = [].
Proof. induction xs; simpl; trivial. Qed.

Section Uids.

Context {host : Host} {Sub : Type} {derived : Derived Sub}.

Implicit Types (s : @frame Sub) (c : @Communicator Sub) (p : @process Sub).

Lemma _Handle_return_quiet (invoke : Invoke.IReturn.t) :
  quiet (Sub := Sub) (_Handle_return invoke).
Proof.
  intro s. unfold _Handle_return. run_monad.
  destruct (HashMap.find _ _); run_monad.
  - repeat split; [apply erase_keys_incl | apply erase_NoDup].
  - repeat split; [apply incl_refl | trivial].
Qed.

Lemma _Handle_function_quiet (invoke : Invoke.IFunction.t) :
  quiet (Sub := Sub) (catch_and_drop (_Handle_function invoke)).
Proof.
  intro s.
  destruct (find_and_call_frame invoke s) as (Hafter & Hsent & _).
  apply minted_sent_nil in Hsent.
  unfold _Handle_function, _Send_return, send. run_monad.
  destruct (find_and_call invoke s) as [[ret_|exn] a evs];
    cbn [outcome after emitted] in *; subst a.
  - destruct (sendData (sub_ (this s)) _) as [sub1 [[]|exn1]]; run_monad;
      [|destruct (sendData sub1 _) as [sub2 [[]|exn2]]; run_monad];
      (repeat split; [|apply incl_refl|trivial]);
      rewrite ?minted_app, Hsent; reflexivity.
  - destruct (sendData (sub_ (this s)) _) as [sub1 [[]|exn1]]; run_monad;
      (repeat split; [|apply incl_refl|trivial]);
      rewrite ?minted_app, Hsent; reflexivity.
Qed.

Lemma replyData_quiet (invoke : Invoke.t) : quiet (Sub := Sub) (replyData invoke).
Proof.
  destruct invoke as [f|r]; unfold replyData.
  - destruct (Invoke.has_listener _);
      [apply _Handle_function_quiet | apply _Handle_return_quiet].
  - apply _Handle_return_quiet.
Qed.

Lemma destructor_quiet (error : option Error.t) :
  quiet (Sub := Sub) (destructor error).
Proof.
  intro s. rewrite destructor_run.
  cbn [outcome emitted after this SEQUENCE promises_].
  repeat split.
  - rewrite minted_app.
    rewrite (minted_continue (fun entry => second (snd entry))).
    apply (minted_wake ConditionVariable.ticket).
  - intros k [].
  - intros _. constructor.
Qed.

Lemma setProvider_quiet (obj : value) : quiet (Sub := Sub) (setProvider obj).
Proof.
  intro s. unfold setProvider. run_monad.
  repeat split; [apply incl_refl | trivial].
Qed.

Lemma set_sub__quiet (sub : Sub) : quiet (Sub := Sub) (set_sub_ sub).
Proof.
  intro s. unfold set_sub_. run_monad.
  repeat split; [apply incl_refl | trivial].
Qed.

Lemma join_quiet (param : option Z) (ticket : nat) : quiet (Sub := Sub) (join param ticket).
Proof.
  intro s. unfold join. run_monad.
  destruct (inspectReady _ _); run_monad;
    (repeat split; [apply incl_refl | trivial]).
Qed.

Lemma expire_quiet (ticket : nat) : quiet (Sub := Sub) (expire ticket).
Proof.
  intro s. unfold expire. run_monad.
  destruct (existsb _ _); run_monad;
    (repeat split; [apply incl_refl | trivial]).
Qed.

Lemma _Call_function_gated_quiet (name : string) (params : list value)
    (resolve reject : FunctionLike) s :
  inspectReady (sub_ (this s)) "Communicator._Call_fuction" <> None ->
  let r := _Call_function name params resolve reject s in
  after r = s /\ minted (emitted r) = [].
Proof.
  intros Hready. cbv zeta.
  destruct (inspectReady (sub_ (this s)) "Communicator._Call_fuction")
    as [error|] eqn:Herror; [|contradiction].
  rewrite (_Call_function_gated name params resolve reject s error Herror).
  now split.
Qed.

Lemma table_ok_mono (N N' : Z) c : N <= N' -> table_ok N c -> table_ok N' c.
Proof.
  intros Hle [Hnodup Hkeys]. split; [assumption|].
  eapply Forall_impl; [|exact Hkeys]. intros k Hk. cbv beta in *. lia.
Qed.

Lemma Forall_replace_nth {A : Type} (P : A -> Prop) (i : nat) (x : A)
    (l : list A) :
  Forall P l -> P x -> Forall P (replace_nth i x l).
Proof.
  intros Hl Hx. revert i.
  induction Hl as [|y l Hy Hl IH]; intros [|i]; simpl;
    constructor; auto.
Qed.

Lemma nth_error_Forall {A : Type} (P : A -> Prop) (i : nat) (x : A)
    (l : list A) :
  Forall P l -> nth_error l i = Some x -> P x.
Proof.
  intros Hl Hnth. apply nth_error_In in Hnth.
  now apply (proj1 (Forall_forall P l) Hl).
Qed.

Lemma on_object_quiet {A : Type} (i : nat) (m : M A) p :
  quiet m ->
  process_ok p ->
  static_SEQUENCE (fst (on_object i m p)) = static_SEQUENCE p
  /\ minted (snd (on_object i m p)) = []
  /\ process_ok (fst (on_object i m p)).
Proof.
  intros Hquiet Hok. unfold on_object.
  destruct (nth_error (objects p) i) as [c|] eqn:Hnth; [|now repeat split].
  destruct (Hquiet (new_frame (static_SEQUENCE p) c))
    as (Hseq & Hminted & Hincl & Hnodup).
  cbn [fst snd SEQUENCE this static_SEQUENCE objects] in *.
  repeat split; try assumption.
  unfold process_ok. cbn [static_SEQUENCE objects]. rewrite Hseq.
  apply Forall_replace_nth; [exact Hok|].
  destruct (nth_error_Forall _ _ _ _ Hok Hnth) as [Hc1 Hc2].
  split; [now apply Hnodup|].
  apply Forall_forall. intros k Hk.
  apply (proj1 (Forall_forall _ _) Hc2). now apply Hincl.
Qed.

Lemma minted_sent (evs : list event) :
  minted evs =
  flat_map (fun m => match m with
                     | Invoke.Function f => [Invoke.IFunction.uid f]
                     | Invoke.Return _ => []
                     end) (sent evs).
Proof.
  induction evs as [|ev evs IH]; [reflexivity|].
  destruct ev as [[f|r]| | | | | |]; simpl; now rewrite IH.
Qed.

Lemma keys_below_fresh (N : Z) (m : HashMap.t) :
  Forall (fun k => k <= N) (HashMap.keys m) -> ~ In (N + 1) (HashMap.keys m).
Proof.
  intros Hkeys Hin.
  apply (proj1 (Forall_forall _ _) Hkeys) in Hin. lia.
Qed.

(** One action: the counter does not go down; while it stays within the
    safe integers the tables stay sound, and the action mints either
    nothing or exactly the next integer. *)
Lemma perform_step (a : action) p :
  process_ok p ->
  static_SEQUENCE p <= static_SEQUENCE (fst (perform a p))
  /\ (static_SEQUENCE (fst (perform a p)) <= MAX_SAFE_INTEGER ->
      process_ok (fst (perform a p))
      /\ ((minted (snd (perform a p)) = []
           /\ static_SEQUENCE (fst (perform a p)) = static_SEQUENCE p)
          \/ (minted (snd (perform a p)) = [static_SEQUENCE p + 1]
              /\ static_SEQUENCE (fst (perform a p))
                 = static_SEQUENCE p + 1))).
Proof.
  intros Hok.
  assert (Hquiet : forall (A : Type) (i : nat) (m : M A),
    quiet m ->
    static_SEQUENCE p <= static_SEQUENCE (fst (on_object i m p))
    /\ (static_SEQUENCE (fst (on_object i m p)) <= MAX_SAFE_INTEGER ->
        process_ok (fst (on_object i m p))
        /\ ((minted (snd (on_object i m p)) = []
             /\ static_SEQUENCE (fst (on_object i m p)) = static_SEQUENCE p)
            \/ (minted (snd (on_object i m p)) = [static_SEQUENCE p + 1]
                /\ static_SEQUENCE (fst (on_object i m p))
                   = static_SEQUENCE p + 1)))).
  { intros A i m Hm.
    destruct (on_object_quiet i m p Hm Hok) as (Hseq & Hminted & Hok').
    split; [lia|]. intros _. split; [assumption|]. left. now split. }
  destruct a as [provider sub|i name params promise|i invoke|i error|i obj
                |i param ticket|i ticket|i sub]; cbn [perform].
  - cbn [fst snd static_SEQUENCE]. split; [lia|]. intros _.
    split; [|left; now split].
    unfold process_ok. cbn [static_SEQUENCE objects].
    apply Forall_app. split; [exact Hok|].
    repeat constructor.
  - unfold on_object.
    destruct (nth_error (objects p) i) as [c|] eqn:Hnth.
    2: { cbn [fst snd]. split; [lia|]. intros _.
         split; [assumption | left; now split]. }
    set (s := new_frame (static_SEQUENCE p) c).
    destruct (nth_error_Forall _ _ _ _ Hok Hnth) as [Hnodup Hkeys].
    destruct (inspectReady (sub_ c) "Communicator._Call_fuction")
      as [error|] eqn:Hready.
    + destruct (_Call_function_gated_quiet name params
                  (resolve_of promise) (reject_of promise) s)
        as (Hafter & Hminted).
      { cbn [this sub_ s]. rewrite Hready. discriminate. }
      cbv zeta in *. cbn [fst snd static_SEQUENCE objects].
      rewrite Hafter, Hminted. cbn [SEQUENCE this s].
      split; [lia|]. intros _. split; [|left; now split].
      unfold process_ok. cbn [static_SEQUENCE objects].
      apply Forall_replace_nth; [exact Hok | now split].
    + destruct (_Call_function_ready name params
                  (resolve_of promise) (reject_of promise) s Hready)
        as (_ & Hsent & Hseq & Hpromises & _).
      cbv zeta in *. cbn [fst snd static_SEQUENCE objects].
      rewrite Hseq. cbn [SEQUENCE this s] in *.
      split; [apply increment_mono|]. intros Hsafe.
      rewrite (increment_exact _ Hsafe) in *.
      split.
      * unfold process_ok. cbn [static_SEQUENCE objects].
        apply Forall_replace_nth.
        -- eapply Forall_impl; [|exact Hok].
           intros c'. apply table_ok_mono. lia.
        -- unfold table_ok. rewrite Hpromises. split.
           ++ now apply emplace_NoDup.
           ++ rewrite emplace_fresh by now apply keys_below_fresh.
              unfold HashMap.keys. rewrite map_app. apply Forall_app. split.
              ** eapply Forall_impl; [|exact Hkeys].
                 intros k Hk. cbv beta in *. lia.
              ** repeat constructor. cbn [fst]. lia.
      * right. split; [|reflexivity].
        rewrite minted_sent, Hsent. reflexivity.
  - apply Hquiet, replyData_quiet.
  - apply Hquiet, destructor_quiet.
  - apply Hquiet, setProvider_quiet.
  - apply Hquiet, join_quiet.
  - apply Hquiet, expire_quiet.
  - apply Hquiet, set_sub__quiet.
Qed.

Lemma run_cons (a : action) (acts : list action) p :
  run (a :: acts) p
  = (fst (run acts (fst (perform a p))),
     snd (perform a p) ++ snd (run acts (fst (perform a p)))).
Proof.
  cbn [run]. destruct (perform a p) as [p1 evs1]. cbn [fst snd].
  now destruct (run acts p1).
Qed.

(** The counter never goes down, whatever the tables hold. *)
Lemma perform_mono (a : action) p :
  static_SEQUENCE p <= static_SEQUENCE (fst (perform a p)).
Proof.
  assert (Hobj : forall (A : Type) (i : nat) (m : M A),
    (forall s, SEQUENCE s <= SEQUENCE (after (m s))) ->
    static_SEQUENCE p <= static_SEQUENCE (fst (on_object i m p))).
  { intros A i m Hm. unfold on_object.
    destruct (nth_error (objects p) i) as [c|]; cbn [fst]; [|lia].
    apply (Hm (new_frame (static_SEQUENCE p) c)). }
  destruct a as [provider sub|i name params promise|i invoke|i error|i obj
                |i param ticket|i ticket|i sub];
    cbn [perform]; try (cbn; lia); apply Hobj; intro s.
  - destruct (inspectReady (sub_ (this s)) "Communicator._Call_fuction")
      as [error|] eqn:Hready.
    + rewrite (_Call_function_gated name params
                 (resolve_of promise) (reject_of promise) s error Hready).
      cbn [after]. lia.
    + destruct (_Call_function_ready name params
                  (resolve_of promise) (reject_of promise) s Hready)
        as (_ & _ & Hseq & _). cbv zeta in Hseq. rewrite Hseq.
      apply increment_mono.
  - destruct (replyData_quiet invoke s) as (Hseq & _). lia.
  - destruct (destructor_quiet error s) as (Hseq & _). lia.
  - destruct (setProvider_quiet obj s) as (Hseq & _). lia.
  - destruct (join_quiet param ticket s) as (Hseq & _). lia.
  - destruct (expire_quiet ticket s) as (Hseq & _). lia.
  - destruct (set_sub__quiet sub s) as (Hseq & _). lia.
Qed.

Lemma run_mono (acts : list action) p :
  static_SEQUENCE p <= static_SEQUENCE (fst (run acts p)).
Proof.
  revert p. induction acts as [|a acts IH]; intro p; [cbn; lia|].
  rewrite run_cons. cbn [fst].
  specialize (IH (fst (perform a p))).
  pose proof (perform_mono a p). lia.
Qed.

Lemma run_ok (acts : list action) p :
  process_ok p ->
  static_SEQUENCE p <= static_SEQUENCE (fst (run acts p))
  /\ (static_SEQUENCE (fst (run acts p)) <= MAX_SAFE_INTEGER ->
      process_ok (fst (run acts p))
      /\ StronglySorted Z.lt (minted (snd (run acts p)))
      /\ Forall (fun u => static_SEQUENCE p < u
                          /\ u <= static_SEQUENCE (fst (run acts p)))
                (minted (snd (run acts p)))).
Proof.
  revert p. induction acts as [|a acts IH]; intros p Hok.
  - cbn. split; [lia|]. intros _. repeat split; [assumption | constructor..].
  - rewrite run_cons. cbn [fst snd].
    destruct (perform_step a p Hok) as (Hmono1 & Hstep).
    set (p1 := fst (perform a p)) in *.
    pose proof (run_mono acts p1) as Hmono2.
    split; [lia|]. intros Hsafe.
    destruct Hstep as (Hok1 & Hminted1); [lia|].
    destruct (IH p1 Hok1) as (_ & Hrest).
    destruct (Hrest Hsafe) as (Hok2 & Hsorted & Hbounds).
    split; [assumption|]. rewrite minted_app.
    destruct Hminted1 as [[-> Hseq] | [-> Hseq]]; cbn [app].
    + rewrite <- Hseq. now split.
    + split.
      * constructor; [assumption|].
        eapply Forall_impl; [|exact Hbounds]. intros u Hu. cbv beta in *. lia.
      * constructor; [lia|].
        eapply Forall_impl; [|exact Hbounds]. intros u Hu. cbv beta in *. lia.
Qed.

(** C7.  Run any sequence of actions on a fresh process, in which any
    number of communicators share the static counter, and suppose the
    counter is still a safe integer at the end.  Then the uids minted, in
    the order of issuance, are strictly increasing (each is greater than
    all minted before) and lie in 1..SEQUENCE; in every communicator the
    keys of the pending-call table are pairwise distinct and were minted;
    and the next call issued on a ready communicator mints SEQUENCE + 1,
    which is above every uid minted so far and under no key of its table,
    so that the call gets an entry of its own. *)
Theorem uid_uniqueness (acts : list action) :
  let p := fst (run acts boot) in
  let evs := snd (run acts boot) in
  static_SEQUENCE p <= MAX_SAFE_INTEGER ->
  StronglySorted Z.lt (minted evs)
  /\ Forall (fun u => 0 < u /\ u <= static_SEQUENCE p) (minted evs)
  /\ Forall (fun c =>
              NoDup (HashMap.keys (promises_ c))
              /\ Forall (fun k => k <= static_SEQUENCE p)
                        (HashMap.keys (promises_ c)))
            (objects p)
  /\ (forall c name params resolve reject,
        In c (objects p) ->
        inspectReady (sub_ c) "Communicator._Call_fuction" = None ->
        let r := _Call_function name params resolve reject
                   (new_frame (static_SEQUENCE p) c) in
        sent (emitted r) = [call_message (static_SEQUENCE p + 1) name params]
        /\ SEQUENCE (after r) = static_SEQUENCE p + 1
        /\ Forall (fun u => u < static_SEQUENCE p + 1) (minted evs)
        /\ ~ In (static_SEQUENCE p + 1) (HashMap.keys (promises_ c))
        /\ promises_ (this (after r))
           = promises_ c ++ [(static_SEQUENCE p + 1, new_Pair resolve reject)]).
Proof.
  intros p evs Hsafe.
  assert (Hboot : process_ok (@boot Sub)) by apply Forall_nil.
  destruct (run_ok acts boot Hboot) as (_ & Hrun).
  destruct (Hrun Hsafe) as (Hok & Hsorted & Hbounds).
  fold p in Hok, Hbounds. fold evs in Hsorted, Hbounds.
  cbn [boot static_SEQUENCE] in Hbounds.
  split; [exact Hsorted|]. split; [exact Hbounds|]. split; [exact Hok|].
  intros c name params resolve reject Hin Hready r.
  destruct (_Call_function_ready name params resolve reject
              (new_frame (static_SEQUENCE p) c) Hready)
    as (_ & Hsent & Hseq & Hpromises & _).
  cbv zeta in *. cbn [SEQUENCE this] in *. subst r.
  assert (Hexact : increment (static_SEQUENCE p) = static_SEQUENCE p + 1).
  { unfold increment.
    now destruct (Z.leb_spec (static_SEQUENCE p) MAX_SAFE_INTEGER); [|lia]. }
  rewrite Hexact in *.
  destruct (proj1 (Forall_forall _ _) Hok c Hin) as [_ Hkeys].
  split; [exact Hsent|]. split; [exact Hseq|]. split; [|split].
  - eapply Forall_impl; [|exact Hbounds]. intros u Hu. cbv beta in *. lia.
  - now apply keys_below_fresh.
  - rewrite Hpromises. apply emplace_fresh. now apply keys_below_fresh.
Qed.

End Uids.

(* ================================================================== *)
(** ** The theorems at work on the example connector *)
(* ================================================================== *)

(** C2, at a call message whose listener is the empty string, with no
    provider installed: finding the function fails with "the provider is
    not specified yet", and yet no [IReturn] is sent.  [replyData] tells a
    call message from a return message by the truthiness of [listener], so
    this call message is handed to [_Handle_return]. *)
Lemma empty_listener_is_dropped :
  ~ dispatch_as_stated (host := Example.host) (derived := Example.derived)
      (Example.call 7 "" []) Example.unprovided.
Proof.
  intros [_ H].
  specialize (H (VError error_unspecified) eq_refl).
  vm_compute in H. exact H.
Qed.

Example empty_listener_rejects_pending :
  emitted (replyData (host := Example.host) (derived := Example.derived)
             (Invoke.Function (Example.call 1 "" [])) Example.busy)
  = [EvContinue (reject_of 10) VUndefined].
Proof. reflexivity. Qed.

(** C1, at the call message of listener "_token" on a provider whose
    member [_token] is an accessor: the member is read before its name is
    checked, so the getter of the private member runs, on the provider,
    and only then is the call rejected with "RFC does not allow access to
    a member starting with the underscore". *)
Theorem private_accessor_runs :
  let r := replyData (host := Example.host) (derived := Example.derived)
             (Invoke.Function (Example.call 3 "_token" [])) Example.vaulted in
  private_segment "_token"
  /\ emitted r
     = [EvGetter Example.vault "_token";
        EvSend (Invoke.Return
          (Invoke.IReturn.make 3 false
             (Example.example_serializeError
                (VError (error_starting "_token")))))]
  /\ accessor (Host := Example.host) Example.vault "_token"
     = Some (Example.example_apply (VFunction 5) Example.vault []).
Proof. split; [left; reflexivity|]. split; reflexivity. Qed.

Lemma filter_stops_calls_witness :
  split "."%char "_secret" = [] ++ "_secret" :: []
  /\ filtered (host := Example.host) "_secret" Example.provider [] "_secret"
  /\ Example.example_member Example.provider "_secret" = VFunction 3
  /\ exists exn,
       sent (emitted (replyData (host := Example.host)
                        (derived := Example.derived)
                        (Invoke.Function (Example.call 5 "_secret" []))
                        Example.online))
       = [negative_return (host := Example.host) 5 exn]
       /\ function_calls
            (emitted (replyData (host := Example.host)
                        (derived := Example.derived)
                        (Invoke.Function (Example.call 5 "_secret" []))
                        Example.online)) = []
       /\ (getters
             (emitted (replyData (host := Example.host)
                         (derived := Example.derived)
                         (Invoke.Function (Example.call 5 "_secret" []))
                         Example.online)) = [] ->
           exists e, exn = VError e /\ dispatch_error "_secret" e)
       /\ outcome (replyData (host := Example.host)
                     (derived := Example.derived)
                     (Invoke.Function (Example.call 5 "_secret" []))
                     Example.online) = Normal tt.
Proof.
  split; [reflexivity|]. split; [left; left; reflexivity|].
  split; [reflexivity|].
  apply (filter_stops_calls (host := Example.host)
           (derived := Example.derived)
           (Example.call 5 "_secret" []) Example.online [] [] "_secret").
  - reflexivity.
  - left. left. reflexivity.
Defined.

Lemma dispatch_replies_witness :
  "boom" <> ""
  /\ outcome (find_and_call (host := Example.host)
                (Example.call 5 "boom" []) Example.online)
     = Throw (VError (new_Error "nope"))
  /\ sent (emitted (replyData (host := Example.host)
                      (derived := Example.derived)
                      (Invoke.Function (Example.call 5 "boom" []))
                      Example.online))
     = [negative_return (host := Example.host) 5 (VError (new_Error "nope"))].
Proof.
  split; [discriminate|]. split; [reflexivity|].
  apply (proj2 (proj2 (dispatch_replies (host := Example.host)
                         (derived := Example.derived)
                         (Example.call 5 "boom" []) Example.online))).
  - discriminate.
  - reflexivity.
Defined.

Lemma success_reply_failure_witness :
  outcome (find_and_call (host := Example.host)
             (Example.call 5 "echo" [VNumber 42]) Example.jammed)
  = Normal (VNumber 42)
  /\ snd (sendData (Derived := Example.derived) (sub_ (this Example.jammed))
            (Invoke.Return (Invoke.IReturn.make 5 true (VNumber 42))))
     = Throw Example.socket_error
  /\ sent (emitted (_Handle_function (host := Example.host)
                      (derived := Example.derived)
                      (Example.call 5 "echo" [VNumber 42]) Example.jammed))
     = [Invoke.Return (Invoke.IReturn.make 5 true (VNumber 42));
        negative_return (host := Example.host) 5 Example.socket_error].
Proof.
  split; [reflexivity|]. split; [reflexivity|].
  apply (proj1 (success_reply_failure (host := Example.host)
                  (derived := Example.derived)
                  (Example.call 5 "echo" [VNumber 42]) Example.jammed
                  (VNumber 42) Example.socket_error eq_refl eq_refl)).
Defined.

Lemma _Call_function_not_ready_witness :
  inspectReady (Derived := Example.derived) (sub_ (this Example.offline))
    "Communicator._Call_fuction"
  = Some (new_Error
      "Error on WebSocketConnector.Communicator._Call_fuction(): connect first.")
  /\ emitted (_Call_function (derived := Example.derived) "echo" [VNumber 42]
                (resolve_of 0) (reject_of 0) Example.offline)
     = [EvContinue (reject_of 0)
          (VError (new_Error
             "Error on WebSocketConnector.Communicator._Call_fuction(): connect first."))].
Proof.
  split; [reflexivity|].
  apply (proj1 (_Call_function_not_ready (derived := Example.derived)
                  "echo" [VNumber 42] (resolve_of 0) (reject_of 0)
                  Example.offline _ eq_refl)).
Defined.

Lemma driver_call_message_witness :
  "math" <> "then"
  /\ Forall plain_attribute ["add"]
  /\ inspectReady (Derived := Example.derived) (sub_ (this Example.online))
       "Communicator._Call_fuction" = None
  /\ driver_path ["math"; "add"] = Some (Normal (NProxy "math.add"))
  /\ sent (emitted (node_call (host := Example.host)
                      (derived := Example.derived) (NProxy "math.add")
                      [VNumber 2; VNumber 3] (resolve_of 0) (reject_of 0)
                      Example.online))
     = [call_message 1 "math.add" [VNumber 2; VNumber 3]].
Proof.
  assert (Hthen : "math" <> "then") by discriminate.
  assert (Hrest : Forall plain_attribute ["add"]).
  { constructor; [|constructor]. repeat split; discriminate. }
  split; [exact Hthen|]. split; [exact Hrest|]. split; [reflexivity|].
  destruct (driver_call_message (host := Example.host)
              (derived := Example.derived) "math" ["add"]
              [VNumber 2; VNumber 3] (resolve_of 0) (reject_of 0)
              Example.online Hthen Hrest eq_refl) as (Hpath & Hcall & _).
  split; [exact Hpath | exact (proj2 Hcall)].
Defined.

Lemma uid_uniqueness_witness :
  static_SEQUENCE (fst (run (host := Example.host)
                          (derived := Example.derived)
                          Example.session boot)) <= MAX_SAFE_INTEGER
  /\ minted (snd (run (host := Example.host) (derived := Example.derived)
                    Example.session boot)) = [1; 2; 3]
  /\ StronglySorted Z.lt
       (minted (snd (run (host := Example.host) (derived := Example.derived)
                       Example.session boot))).
Proof.
  assert (Hsafe : static_SEQUENCE
                    (fst (run (host := Example.host)
                            (derived := Example.derived)
                            Example.session boot)) <= MAX_SAFE_INTEGER).
  { vm_compute. discriminate. }
  split; [exact Hsafe|]. split; [reflexivity|].
  apply (proj1 (uid_uniqueness (host := Example.host)
                  (derived := Example.derived) Example.session Hsafe)).
Defined.

(** The end-to-end scenarios of the specification, on the example
    connector. *)

Example scenario_echo :
  emitted (replyData (host := Example.host) (derived := Example.derived)
             (Invoke.Function (Example.call 1 "echo" [VNumber 42]))
             Example.online)
  = [EvProvider (VFunction 0) Example.provider [VNumber 42];
     EvSend (Invoke.Return (Invoke.IReturn.make 1 true (VNumber 42)))].
Proof. reflexivity. Qed.

Example scenario_nested :
  sent (emitted (replyData (host := Example.host) (derived := Example.derived)
                   (Invoke.Function
                      (Example.call 2 "math.add" [VNumber 2; VNumber 3]))
                   Example.online))
  = [Invoke.Return (Invoke.IReturn.make 2 true (VNumber 5))].
Proof. reflexivity. Qed.

Example scenario_remote_exception :
  sent (emitted (replyData (host := Example.host) (derived := Example.derived)
                   (Invoke.Function (Example.call 3 "boom" []))
                   Example.online))
  = [Invoke.Return
       (Invoke.IReturn.make 3 false
          (VObject [("name", VString "Error"); ("message", VString "nope")]))].
Proof. reflexivity. Qed.

Example scenario_raw_exception :
  sent (emitted (replyData (host := Example.host) (derived := Example.derived)
                   (Invoke.Function (Example.call 3 "raw" []))
                   Example.online))
  = [Invoke.Return (Invoke.IReturn.make 3 false (VString "raw"))].
Proof. reflexivity. Qed.

Example scenario_access_violation :
  emitted (replyData (host := Example.host) (derived := Example.derived)
             (Invoke.Function (Example.call 4 "_secret" []))
             Example.online)
  = [EvSend (Invoke.Return
       (Invoke.IReturn.make 4 false
          (VObject
             [("name", VString "Error");
              ("message", VString "Error on Communicator._Handle_function(): RFC does not allow access to a member starting with the underscore: Provider._secret()")])))].
Proof. reflexivity. Qed.

Example scenario_function_toString :
  sent (emitted (replyData (host := Example.host) (derived := Example.derived)
                   (Invoke.Function (Example.call 4 "echo.toString" []))
                   Example.online))
  = [Invoke.Return
       (Invoke.IReturn.make 4 false
          (VObject
             [("name", VString "Error");
              ("message", VString "Error on Communicator._Handle_function(): RFC on Function.toString() is not allowed: Provider.echo.toString().")]))].
Proof. reflexivity. Qed.

Example scenario_walk_through_undefined :
  sent (emitted (replyData (host := Example.host) (derived := Example.derived)
                   (Invoke.Function (Example.call 4 "nothing._secret" []))
                   Example.online))
  = [Invoke.Return
       (Invoke.IReturn.make 4 false
          (VObject
             [("name", VString "TypeError");
              ("message", VString "Cannot read properties of undefined (reading '_secret')")]))].
Proof. reflexivity. Qed.

Example scenario_disconnect :
  emitted (destructor (Some (new_Error "bye")) Example.busy)
  = [EvContinue (reject_of 10) (VError (new_Error "bye"));
     EvContinue (reject_of 20) (VError (new_Error "bye"));
     EvWake 7 VUndefined;
     EvWake 8 (VBoolean true)].
Proof. reflexivity. Qed.

Example scenario_not_ready :
  emitted (node_call (host := Example.host) (derived := Example.derived)
             (driver_get "any") [] (resolve_of 0) (reject_of 0)
             Example.offline)
  = [EvContinue (reject_of 0)
       (VError (new_Error
          "Error on WebSocketConnector.Communicator._Call_fuction(): connect first."))].
Proof. reflexivity. Qed.

Example scenario_session :
  minted (snd (run (host := Example.host) (derived := Example.derived)
                 Example.session boot)) = [1; 2; 3]
  /\ map (fun c => HashMap.keys (promises_ c))
         (objects (fst (run (host := Example.host)
                          (derived := Example.derived)
                          Example.session boot))) = [[2; 3]].
Proof. split; reflexivity. Qed.

Example increment_saturates :
  increment MAX_SAFE_INTEGER = 9007199254740992
  /\ increment 9007199254740992 = 9007199254740992.
Proof. split; reflexivity. Qed.

(* ================================================================== *)
(** ** Further properties of the dispatch engine *)
(* ================================================================== *)

Lemma truthy_string_ne (l : string) : l <> "" -> truthy_string l = true.
Proof. destruct l; [contradiction | reflexivity]. Qed.

Section DispatchMore.

Context {host : Host} {Sub : Type} {derived : Derived Sub}.

Implicit Types (s : @frame Sub) (invoke : Invoke.IFunction.t).

Lemma callable_bound_target (g this : value) :
  callable (fst (bound_target g this)) = callable g.
Proof.
  revert this.
  induction g; intro this; try reflexivity.
  cbn [bound_target callable]. apply IHg1.
Qed.

(** [bind] where no [bind] of its own stands in for the target: a target
    that can be called is bound by the built-in, and no other code runs;
    any other target gives a [TypeError]. *)
Lemma bind_thisArg_no_own (func thisArg : value) :
  no_own_bind func ->
  (callable func = true
   /\ bind_thisArg func thisArg = (Normal (VBound func thisArg), []))
  \/ (exists e,
        Error.name e = "TypeError"
        /\ bind_thisArg func thisArg = (Throw (VError e), [])).
Proof.
  assert (Hmembers :
    accessor func "bind" = None
    /\ (is_Function_bind (member func "bind") = true
        \/ callable (member func "bind") = false) ->
    get_member func "bind" = (Normal (member func "bind"), []) ->
    (callable func = true
     /\ bind_thisArg func thisArg = (Normal (VBound func thisArg), []))
    \/ (exists e,
          Error.name e = "TypeError"
          /\ bind_thisArg func thisArg = (Throw (VError e), []))).
  { intros [_ Hbind] Hget. unfold bind_thisArg. rewrite Hget.
    destruct (is_Function_bind (member func "bind")) eqn:Hbuiltin.
    - destruct (callable func); [left; now split|].
      right. eexists. split; [|reflexivity]. reflexivity.
    - destruct Hbind as [Hbind | Hbind]; [discriminate Hbind|].
      rewrite callable_bound_target, Hbind.
      right. eexists. split; [|reflexivity]. reflexivity. }
  unfold no_own_bind.
  destruct func eqn:Hfunc;
    try (intros _; right; eexists; (split; [|reflexivity]); reflexivity);
    (intros Hown; apply Hmembers; [exact Hown|];
     unfold get_member; now rewrite (proj1 Hown)).
Qed.

Lemma bind_thisArg_callable (func thisArg bound : value) :
  fst (bind_thisArg func thisArg) = Normal bound ->
  no_own_bind func ->
  callable func = true /\ bound = VBound func thisArg.
Proof.
  intros Hbind Hown.
  destruct (bind_thisArg_no_own func thisArg Hown)
    as [[Hcallable Heq] | (e & _ & Heq)];
    rewrite Heq in Hbind; cbn [fst] in Hbind; [|discriminate].
  injection Hbind as <-. now split.
Qed.

Lemma walk_last (listener : string) (pre : list string) (name : string)
    (thisArg func : value) (found : value * value) :
  fst (walk listener (pre ++ [name]) thisArg func) = Normal found ->
  exists owner target,
    fst (walk listener pre thisArg func) = Normal owner
    /\ fst (get_member (snd owner) name) = Normal target
    /\ found = (snd owner, target).
Proof.
  rewrite walk_app.
  destruct (walk listener pre thisArg func) as [[owner|exn] ran];
    cbn [fst]; [|discriminate].
  cbn [walk].
  destruct (get_member (snd owner) name) as [[target|exn] ran'] eqn:Hget;
    cbn [fst]; [|discriminate].
  destruct (security_error listener name target); cbn [fst];
    [discriminate|].
  intros [= <-]. exists owner, target. now rewrite Hget.
Qed.

Lemma walk_Normal_segments (listener : string) (routes : list string)
    (thisArg func : value) (found : value * value) :
  fst (walk listener routes thisArg func) = Normal found ->
  Forall (fun name => ~ private_segment name) routes.
Proof.
  revert thisArg func.
  induction routes as [|name routes IH]; intros thisArg func Hwalk;
    [constructor|].
  cbn [walk] in Hwalk.
  destruct (get_member func name) as [[func'|exn] ran]; [|discriminate].
  destruct (security_error listener name func') as [e|] eqn:Hsec;
    [discriminate|].
  constructor; [|now apply (IH func func')].
  intro Hprivate.
  destruct (security_error_private listener name func' Hprivate) as [e He].
  congruence.
Qed.

(** The code of the provider [replyData] runs for a call message, it runs
    while it finds and calls the function. *)
Lemma replyData_ran invoke s (ev : event) :
  match ev with
  | EvProvider _ _ _ | EvGetter _ _ | EvOwnBind _ _ _ => True
  | _ => False
  end ->
  In ev (emitted (replyData (Invoke.Function invoke) s)) ->
  In ev (emitted (find_and_call invoke s)).
Proof.
  intros Hev Hin.
  unfold replyData in Hin. cbn [Invoke.has_listener] in Hin.
  destruct (truthy_string (Invoke.IFunction.listener invoke)).
  - unfold _Handle_function, _Send_return, send in Hin. run_monad.
    destruct (find_and_call invoke s) as [[ret_|exn] a evs];
      cbn [outcome after emitted] in *.
    + destruct (sendData (sub_ (this a)) _) as [sub1 [[]|exn1]];
        run_monad;
        [|destruct (sendData sub1 _) as [sub2 [[]|exn2]]; run_monad];
        repeat (apply in_app_or in Hin as [Hin | Hin]); trivial;
        try (destruct Hin as [<- | []]; destruct Hev);
        destruct Hin.
    + destruct (sendData (sub_ (this a)) _) as [sub1 [[]|exn1]];
        run_monad;
        repeat (apply in_app_or in Hin as [Hin | Hin]); trivial;
        try (destruct Hin as [<- | []]; destruct Hev);
        destruct Hin.
  - unfold _Handle_return in Hin. run_monad.
    destruct (HashMap.find _ _); run_monad;
      [destruct Hin as [<- | []]; destruct Hev | destruct Hin].
Qed.

Lemma provider_calls_In (func thisArg : value) (args : list value)
    (evs : list event) :
  In (EvProvider func thisArg args) evs ->
  In (EvProvider func thisArg args) (provider_calls evs).
Proof.
  induction evs as [|ev' evs IH]; [intros []|].
  intros [-> | Hin]; [now left|].
  destruct ev'; cbn [provider_calls]; try (right); now apply IH.
Qed.

(** X4.  Whenever [replyData] calls a function with the parameters of a
    call message, the listener splits into segments [pre ++ [name]] none
    of which is private; the walk of [pre] from the provider reached a
    receiver, the member [name] of the receiver was read as the target,
    and [target.bind(receiver)] gave what is called: the function that
    runs, with its [this], is what the bound value stands for, and its
    arguments are the [value] fields of the message's parameters.  Where
    no [bind] of its own stands in for the target, the target itself can
    be called and is what runs, on the receiver.  (The call is not the
    only code of the provider that may run: the members are read through
    their accessors, and a [bind] of the target's own is called.) *)
Theorem provider_call_is_bound invoke s (func thisArg : value)
    (args : list value) :
  In (EvProvider func thisArg args)
     (emitted (replyData (Invoke.Function invoke) s)) ->
  exists pre name owner target bound,
    split "."%char (Invoke.IFunction.listener invoke) = pre ++ [name]
    /\ Forall (fun segment => ~ private_segment segment) (pre ++ [name])
    /\ fst (walk (Invoke.IFunction.listener invoke) pre VUndefined
              (provider_ (this s))) = Normal owner
    /\ fst (get_member (snd owner) name) = Normal target
    /\ fst (bind_thisArg target (snd owner)) = Normal bound
    /\ (func, thisArg) = bound_target bound VUndefined
    /\ callable func = true
    /\ args = parameter_values invoke
    /\ (no_own_bind target ->
        callable target = true
        /\ (func, thisArg) = bound_target target (snd owner)).
Proof.
  intro Hin. apply replyData_ran in Hin; [|exact I].
  rewrite find_and_call_unfold in Hin.
  destruct (provider_must_be (provider_ (this s))) as [provider|exn]
    eqn:Hprovider; [|destruct Hin].
  assert (provider = provider_ (this s)) as ->.
  { unfold provider_must_be in Hprovider.
    destruct (provider_ (this s)); congruence. }
  pose proof (walk_ran (Invoke.IFunction.listener invoke)
                (split "."%char (Invoke.IFunction.listener invoke))
                VUndefined (provider_ (this s))) as (_ & _ & Hwalked).
  destruct (walk _ _ VUndefined (provider_ (this s))) as [[found|exn] ran]
    eqn:Hwalk; cbn [snd emitted] in *.
  2: { apply provider_calls_In in Hin. rewrite Hwalked in Hin.
       destruct Hin. }
  pose proof (bind_thisArg_ran (snd found) (fst found)) as (_ & _ & Hbound).
  destruct (bind_thisArg (snd found) (fst found)) as [[bound|exn] ran']
    eqn:Hbind; cbn [snd emitted] in *.
  2: { apply provider_calls_In in Hin.
       rewrite provider_calls_app, Hwalked, Hbound in Hin. destruct Hin. }
  cbv zeta in Hin.
  destruct (callable (fst (bound_target bound VUndefined))) eqn:Hcallable;
    cbn [emitted] in Hin; apply provider_calls_In in Hin;
    rewrite ?provider_calls_app, Hwalked, Hbound in Hin;
    [|destruct Hin].
  destruct Hin as [[= <- <- <-] | []].
  destruct (exists_last (split_cons "."%char (Invoke.IFunction.listener invoke)))
    as (pre & name & Hsplit).
  rewrite Hsplit in Hwalk.
  assert (Hfst : fst (walk (Invoke.IFunction.listener invoke) (pre ++ [name])
                        VUndefined (provider_ (this s))) = Normal found)
    by now rewrite Hwalk.
  pose proof (walk_Normal_segments _ _ _ _ _ Hfst) as Hsafe.
  destruct (walk_last _ _ _ _ _ _ Hfst)
    as (owner & target & Hpre & Htarget & ->).
  cbn [fst snd] in *.
  exists pre, name, owner, target, bound.
  split; [exact Hsplit|]. split; [exact Hsafe|]. split; [exact Hpre|].
  split; [exact Htarget|]. split; [now rewrite Hbind|].
  split; [now destruct (bound_target bound VUndefined)|].
  split; [exact Hcallable|]. split; [reflexivity|].
  intro Hown.
  destruct (bind_thisArg_callable target (snd owner) bound) as [Hc ->];
    [now rewrite Hbind | exact Hown |].
  split; [exact Hc|]. cbn [bound_target].
  now destruct (bound_target target (snd owner)).
Qed.

(** Where the function was found and returned, it was called once with
    the message's parameters. *)
Lemma find_and_call_once invoke s (ret_ : value) :
  outcome (find_and_call invoke s) = Normal ret_ ->
  List.length (provider_calls (emitted (find_and_call invoke s))) = 1%nat.
Proof.
  rewrite find_and_call_unfold.
  destruct (provider_must_be (provider_ (this s))) as [provider|exn];
    [|discriminate].
  pose proof (walk_ran (Invoke.IFunction.listener invoke)
                (split "."%char (Invoke.IFunction.listener invoke))
                VUndefined provider) as (_ & _ & Hwalked).
  destruct (walk _ _ VUndefined provider) as [[found|exn] ran];
    cbn [snd] in *; [|discriminate].
  pose proof (bind_thisArg_ran (snd found) (fst found)) as (_ & _ & Hbound).
  destruct (bind_thisArg (snd found) (fst found)) as [[bound|exn] ran'];
    cbn [snd] in *; [|discriminate].
  cbv zeta. destruct (callable _); [|discriminate].
  intros _. cbn [emitted].
  now rewrite !provider_calls_app, Hwalked, Hbound.
Qed.

(** X2.  When the function was found and returned [ret], and [sendData]
    takes the reply, [_Handle_function] runs the function once and hands
    exactly one message to [sendData]: the [IReturn] of the call's uid with
    [success: true] and [ret] itself as value, also when [ret] is an
    [Error] instance (only thrown errors are serialized). *)
Theorem positive_return invoke s (ret_ : value) :
  outcome (find_and_call invoke s) = Normal ret_ ->
  snd (sendData (sub_ (this s))
         (Invoke.Return
            {| Invoke.IReturn.uid := Invoke.IFunction.uid invoke;
               Invoke.IReturn.success := true;
               Invoke.IReturn.value := ret_ |})) = Normal tt ->
  let r := _Handle_function invoke s in
  outcome r = Normal tt
  /\ sent (emitted r)
     = [Invoke.Return
          {| Invoke.IReturn.uid := Invoke.IFunction.uid invoke;
             Invoke.IReturn.success := true;
             Invoke.IReturn.value := ret_ |}]
  /\ List.length (provider_calls (emitted r)) = 1%nat.
Proof.
  intros Hcall Hsend. cbv zeta.
  pose proof (find_and_call_once invoke s ret_ Hcall) as Honce.
  destruct (find_and_call_frame invoke s) as (Hafter & Hsent & _).
  unfold _Handle_function, _Send_return, send. run_monad.
  destruct (find_and_call invoke s) as [[ret'|exn] a evs];
    cbn [outcome after emitted] in *; [|discriminate].
  injection Hcall as ->. subst a. cbn [negb andb].
  destruct (sendData (sub_ (this s)) _) as [sub1 res1].
  cbn [snd] in Hsend. subst res1. run_monad.
  rewrite !sent_app, !provider_calls_app, Hsent, !app_nil_r.
  now repeat split.
Qed.

(** X5.  The security checks of the walk let a segment pass exactly when
    it does not start with "_", does not end with "_", is neither
    "constructor" nor "prototype", and is not "toString" resolving to
    [Function.toString]; so the empty segment passes, and so does
    "toString" on a member that is not the built-in of functions. *)
Theorem security_error_passes (listener name : string) (func : value) :
  security_error listener name func = None
  <-> (~ private_segment name
       /\ ~ (name = "toString" /\ is_Function_toString func = true)).
Proof.
  split.
  - intro Hpass. split.
    + intro Hprivate.
      destruct (security_error_private listener name func Hprivate) as [e He].
      congruence.
    + intros [-> Hnative].
      destruct (security_error_toString listener func Hnative) as [e He].
      congruence.
  - intros [Hprivate Hnative]. unfold security_error, private_segment in *.
    destruct (is_underscore (first_char name)) eqn:Hfirst.
    { exfalso. apply Hprivate. left. now apply is_underscore_spec. }
    destruct (is_underscore (last_char name)) eqn:Hlast.
    { exfalso. apply Hprivate. right. left. now apply is_underscore_spec. }
    destruct (String.eqb_spec name "toString") as [-> | Hne].
    + destruct (is_Function_toString func); [exfalso; now apply Hnative|].
      reflexivity.
    + cbn [andb].
      destruct (String.eqb_spec name "constructor") as [-> | Hc];
        [exfalso; apply Hprivate; tauto|].
      destruct (String.eqb_spec name "prototype") as [-> | Hp];
        [exfalso; apply Hprivate; tauto|].
      reflexivity.
Qed.

(** X14.  A call message with a non-empty listener that arrives while the
    provider is [undefined] is answered by one negative return carrying
    the serialized error "... the provider is not specified yet."; while
    the provider is [null], by the one carrying "... the provider would not
    be.".  In both cases no member is read and no function is called. *)
Theorem provider_missing invoke s :
  Invoke.IFunction.listener invoke <> "" ->
  provider_ (this s) = VUndefined \/ provider_ (this s) = VNull ->
  emitted (replyData (Invoke.Function invoke) s)
  = [EvSend (Invoke.Return
       {| Invoke.IReturn.uid := Invoke.IFunction.uid invoke;
          Invoke.IReturn.success := false;
          Invoke.IReturn.value :=
            serializeError (VError
              {| Error.name := "Error";
                 Error.message :=
                   match provider_ (this s) with
                   | VNull =>
                       "Error on Communicator._Handle_function(): the provider would not be."
                   | _ =>
                       "Error on Communicator._Handle_function(): the provider is not specified yet."
                   end |}) |})].
Proof.
  intros Hlistener Hprovider. unfold replyData. cbn [Invoke.has_listener].
  rewrite (truthy_string_ne _ Hlistener).
  unfold _Handle_function, _Send_return, send. run_monad.
  rewrite find_and_call_unfold.
  destruct Hprovider as [-> | ->]; cbn [provider_must_be]; run_monad;
    (destruct (sendData (sub_ (this s)) _) as [sub1 [[]|exn1]]; run_monad;
     reflexivity).
Qed.

(** X15.  When the walk of a non-empty listener ends on a value that
    cannot be called (a missing member, which reads as [undefined], or
    any object or primitive) and that has no [bind] of its own to stand in
    for it, the call is answered by one negative return carrying a
    serialized [TypeError], and no function is called: nothing of the
    provider runs but the accessors the walk went through. *)
Theorem target_not_callable invoke s (found : value * value)
    (ran : list event) :
  Invoke.IFunction.listener invoke <> "" ->
  provider_ (this s) <> VUndefined ->
  provider_ (this s) <> VNull ->
  walk (Invoke.IFunction.listener invoke)
    (split "."%char (Invoke.IFunction.listener invoke))
    VUndefined (provider_ (this s)) = (Normal found, ran) ->
  callable (snd found) = false ->
  no_own_bind (snd found) ->
  let r := replyData (Invoke.Function invoke) s in
  exists e,
    Error.name e = "TypeError"
    /\ emitted r
       = ran ++ [EvSend (Invoke.Return
                   {| Invoke.IReturn.uid := Invoke.IFunction.uid invoke;
                      Invoke.IReturn.success := false;
                      Invoke.IReturn.value := serializeError (VError e) |})]
    /\ function_calls (emitted r) = []
    /\ outcome r = Normal tt.
Proof.
  intros Hlistener Hundefined Hnull Hwalk Hcallable Hown r. subst r.
  assert (Hprovider : provider_must_be (provider_ (this s))
                      = Normal (provider_ (this s))).
  { unfold provider_must_be. destruct (provider_ (this s)); congruence. }
  destruct (bind_thisArg_no_own (snd found) (fst found) Hown)
    as [[Hyes _] | (e & Hname & Hbind)]; [congruence|].
  exists e. split; [exact Hname|].
  assert (Hcall : find_and_call invoke s
                  = new_result (Throw (VError e)) s ran).
  { rewrite find_and_call_unfold, Hprovider, Hwalk, Hbind.
    now rewrite app_nil_r. }
  pose proof (walk_calls (Invoke.IFunction.listener invoke)
                (split "."%char (Invoke.IFunction.listener invoke))
                VUndefined (provider_ (this s))) as Hcalls.
  rewrite Hwalk in Hcalls. cbn [snd] in Hcalls.
  unfold replyData. cbn [Invoke.has_listener].
  rewrite (truthy_string_ne _ Hlistener).
  destruct (catch_and_drop_run (_Handle_function invoke) s) as [-> ->].
  rewrite (_Handle_function_failure invoke s (VError e))
    by now rewrite Hcall.
  rewrite Hcall. cbn [emitted].
  split; [reflexivity|]. split; [|reflexivity].
  now rewrite function_calls_app, Hcalls.
Qed.

(** X17.  The callee ignores the [type] field of the parameters: two call
    messages with the same uid, the same listener and the same parameter
    values are answered in the same way. *)
Theorem parameter_types_ignored invoke invoke' s :
  Invoke.IFunction.uid invoke = Invoke.IFunction.uid invoke' ->
  Invoke.IFunction.listener invoke = Invoke.IFunction.listener invoke' ->
  parameter_values invoke = parameter_values invoke' ->
  replyData (Invoke.Function invoke) s = replyData (Invoke.Function invoke') s.
Proof.
  intros Huid Hlistener Hvalues.
  unfold replyData, Invoke.as_IReturn. cbn [Invoke.has_listener].
  rewrite Hlistener, Huid.
  destruct (truthy_string (Invoke.IFunction.listener invoke'));
    [|reflexivity].
  unfold _Handle_function, catch_and_drop, try_catch, bind.
  rewrite !find_and_call_unfold, Hlistener, Hvalues, Huid. reflexivity.
Qed.

End DispatchMore.

(* ================================================================== *)
(** ** Further properties of calls, replies and teardown *)
(* ================================================================== *)

Lemma find_app_fresh (key : Z) (v : Pair) (m : HashMap.t) :
  ~ In key (HashMap.keys m) -> HashMap.find key (m ++ [(key, v)]) = Some v.
Proof.
  induction m as [|[k w] rest IH]; simpl; intro Hfresh.
  - now rewrite Z.eqb_refl.
  - destruct (Z.eqb_spec k key) as [-> | Hne]; [exfalso; apply Hfresh; now left|].
    apply IH. intro Hin. apply Hfresh. now right.
Qed.

Lemma erase_app_fresh (key : Z) (v : Pair) (m : HashMap.t) :
  ~ In key (HashMap.keys m) -> HashMap.erase key (m ++ [(key, v)]) = m.
Proof.
  induction m as [|[k w] rest IH]; simpl; intro Hfresh.
  - now rewrite Z.eqb_refl.
  - destruct (Z.eqb_spec k key) as [-> | Hne]; [exfalso; apply Hfresh; now left|].
    f_equal. apply IH. intro Hin. apply Hfresh. now right.
Qed.

Lemma split_dot_free (name : string) :
  dot_free name = true -> split "."%char name = [name].
Proof.
  induction name as [|c rest IH]; [reflexivity|].
  cbn [dot_free split]. intro H. apply andb_true_iff in H as [Hc Hrest].
  apply negb_true_iff in Hc. rewrite Hc, (IH Hrest). reflexivity.
Qed.

Lemma split_append (name rest : string) :
  dot_free name = true ->
  split "."%char (name +++ String "."%char rest)
  = name :: split "."%char rest.
Proof.
  induction name as [|c name IH]; intro H.
  - reflexivity.
  - cbn [dot_free] in H. apply andb_true_iff in H as [Hc Hname].
    apply negb_true_iff in Hc.
    change (split "."%char (String c name +++ String "."%char rest))
      with (if Ascii.eqb c "."%char
            then EmptyString :: split "."%char (name +++ String "."%char rest)
            else match split "."%char (name +++ String "."%char rest) with
                 | [] => [String c EmptyString]
                 | hd :: tl => String c hd :: tl
                 end).
    rewrite Hc, (IH Hname). reflexivity.
Qed.

Lemma split_concat (names : list string) :
  names <> [] ->
  Forall (fun name => dot_free name = true) names ->
  split "."%char (String.concat "." names) = names.
Proof.
  intros Hne Hfree. induction Hfree as [|name rest Hname Hrest IH];
    [contradiction|].
  destruct rest as [|next rest].
  - cbn [String.concat]. now apply split_dot_free.
  - change (String.concat "." (name :: next :: rest))
      with (name +++ String "."%char (String.concat "." (next :: rest))).
    rewrite (split_append _ _ Hname).
    f_equal. apply IH. discriminate.
Qed.

(** X6.  The path the driver builds for the reads [d.first.rest...] is
    split back into the same segments by the dispatch engine: when no name
    holds a dot, [first] is not "then" and no later name is "bind", "call"
    or "apply", the listener of the function node splits by "." into
    [first :: rest]. *)
Theorem driver_path_splits_back (first : string) (rest : list string) :
  first <> "then" ->
  Forall plain_attribute rest ->
  Forall (fun name => dot_free name = true) (first :: rest) ->
  exists listener,
    driver_path (first :: rest) = Some (Normal (NProxy listener))
    /\ split "."%char listener = first :: rest.
Proof.
  intros Hthen Hplain Hfree.
  exists (String.concat "." (first :: rest)). split.
  - unfold driver_path, driver_get.
    apply String.eqb_neq in Hthen. rewrite Hthen.
    now apply node_path_plain.
  - apply split_concat; [discriminate | exact Hfree].
Qed.

Section CallsMore.

Context {host : Host} {Sub : Type} {derived : Derived Sub}.

Implicit Types (s : @frame Sub).

(** X7.  The meta-methods of a function node forward to the node itself and
    drop the receiver: [d.p.call(t, x...)] does what [d.p(x...)] does,
    [d.p.bind(t, x...)] sends nothing and gives a function whose call on
    [(y...)] does what [d.p(x..., y...)] does, and [d.p.apply(t, a)] does
    what [d.p(...items)] does when [a] holds the arguments [items]. *)
Theorem meta_methods_forward (name : string) (thisArg : value)
    (args more : list value) (resolve reject : FunctionLike) s :
  (exists n,
     node_get (NProxy name) "call" = Some (Normal n)
     /\ node_call n (thisArg :: args) resolve reject s
        = node_call (_Proxy_func name) args resolve reject s)
  /\ (exists n bound,
        node_get (NProxy name) "bind" = Some (Normal n)
        /\ node_call n (thisArg :: args) resolve reject s
           = new_result (Normal (Some bound)) s []
        /\ node_call bound more resolve reject s
           = node_call (_Proxy_func name) (args ++ more) resolve reject s)
  /\ (exists n,
        node_get (NProxy name) "apply" = Some (Normal n)
        /\ forall a,
             array_like a = Normal args ->
             a <> VUndefined -> a <> VNull ->
             node_call n [thisArg; a] resolve reject s
             = node_call (_Proxy_func name) args resolve reject s).
Proof.
  split; [|split].
  - exists (NCall name). split; reflexivity.
  - exists (NBind name), (NBound name args). repeat split; reflexivity.
  - exists (NApply name). split; [reflexivity|].
    intros a Harray Hundefined Hnull.
    assert (Hargs : match a with
                    | VUndefined | VNull => Normal []
                    | _ => array_like a
                    end = Normal args)
      by (destruct a; try contradiction; exact Harray).
    cbn [node_call nth_error _Proxy_func]. rewrite Hargs.
    unfold bind at 1, lift. cbn [outcome after emitted app].
    now destruct ((_Call_function name args resolve reject ;;; ret None) s).
Qed.

(** X8.  A call and its reply.  On a ready communicator whose counter is a
    safe integer and whose pending uids were all minted (none above the
    counter), issuing a call and then receiving the [IReturn] that carries
    the call's uid calls exactly one continuation of that call with the
    value, [resolve] for [success: true] and [reject] for [success: false],
    and leaves the pending-call table as it was before the call. *)
Theorem call_then_reply (name : string) (params : list value)
    (resolve reject : FunctionLike) s (success : bool) (v : value) :
  inspectReady (sub_ (this s)) "Communicator._Call_fuction" = None ->
  SEQUENCE s <= MAX_SAFE_INTEGER ->
  Forall (fun k => k <= SEQUENCE s) (HashMap.keys (promises_ (this s))) ->
  let r1 := _Call_function name params resolve reject s in
  let r2 :=
    replyData
      (Invoke.Return
         {| Invoke.IReturn.uid := SEQUENCE s + 1;
            Invoke.IReturn.success := success;
            Invoke.IReturn.value := v |})
      (after r1) in
  sent (emitted r1) = [call_message (SEQUENCE s + 1) name params]
  /\ emitted r2 = [EvContinue (if success then resolve else reject) v]
  /\ promises_ (this (after r2)) = promises_ (this s).
Proof.
  intros Hready Hsafe Hkeys. cbv zeta.
  destruct (_Call_function_ready name params resolve reject s Hready)
    as (_ & Hsent & _ & Hpromises & _). cbv zeta in *.
  assert (Hexact : increment (SEQUENCE s) = SEQUENCE s + 1).
  { unfold increment.
    now destruct (Z.leb_spec (SEQUENCE s) MAX_SAFE_INTEGER); [|lia]. }
  rewrite Hexact in *.
  pose proof (keys_below_fresh _ _ Hkeys) as Hfresh.
  rewrite (emplace_fresh _ _ _ Hfresh) in Hpromises.
  split; [exact Hsent|].
  unfold replyData, _Handle_return. run_monad.
  cbn [Invoke.IReturn.uid Invoke.IReturn.success Invoke.IReturn.value].
  rewrite Hpromises, (find_app_fresh _ _ _ Hfresh). run_monad.
  rewrite (erase_app_fresh _ _ _ Hfresh).
  split; [now destruct success | reflexivity].
Qed.

(** X9.  A second [IReturn] for the same uid is ignored: on a table with
    distinct keys, once [replyData] has handled an [IReturn] for a uid,
    handling another one with that uid calls no continuation and changes
    nothing. *)
Theorem duplicate_reply_ignored (invoke invoke' : Invoke.IReturn.t) s :
  NoDup (HashMap.keys (promises_ (this s))) ->
  Invoke.IReturn.uid invoke' = Invoke.IReturn.uid invoke ->
  let r1 := replyData (Invoke.Return invoke) s in
  replyData (Invoke.Return invoke') (after r1)
  = new_result (Normal tt) (after r1) [].
Proof.
  intros Hnodup Huid. cbv zeta. unfold replyData, _Handle_return. run_monad.
  rewrite Huid.
  destruct (HashMap.find (Invoke.IReturn.uid invoke) (promises_ (this s)))
    as [it|] eqn:Hfind; run_monad.
  - now rewrite (erase_find_same _ _ Hnodup).
  - now rewrite Hfind.
Qed.

(** X10.  After the destructor nothing is left to settle: running the
    destructor again calls no continuation and wakes nobody, and every
    late [IReturn] is dropped without effect. *)
Theorem destructor_is_final (error : option Error.t) s :
  let r := destructor error s in
  (forall error', destructor error' (after r)
                  = new_result (Normal tt) (after r) [])
  /\ (forall invoke, replyData (Invoke.Return invoke) (after r)
                     = new_result (Normal tt) (after r) []).
Proof.
  cbv zeta. rewrite destructor_run. cbn [after]. split.
  - intro error'. now rewrite destructor_run.
  - intro invoke. reflexivity.
Qed.

Lemma expire_fresh (ticket : nat) (cv : ConditionVariable.t) :
  Forall (fun w => ConditionVariable.ticket w <> ticket) cv ->
  existsb (ConditionVariable.expires ticket) cv = false
  /\ ConditionVariable.expire ticket cv = cv.
Proof.
  unfold ConditionVariable.expire.
  induction 1 as [|w cv Hw _ [IHexists IHfilter]]; [now split|].
  assert (Hexpires : ConditionVariable.expires ticket w = false).
  { unfold ConditionVariable.expires.
    apply andb_false_iff. right. now apply Nat.eqb_neq. }
  cbn [existsb filter]. rewrite Hexpires, IHexists, IHfilter. now split.
Qed.

(** X11.  A [join] on a ready communicator sends and settles nothing by
    itself.  When the destructor comes while the join still waits (for a
    timed form: before its time is over), it releases it, the form
    without argument with [undefined] and a timed form with [true],
    together with every waiter that was there before, and leaves no
    waiter; a timer that fires after that finds nothing to do.  When the
    time of a timed form is over first, the join resolves with [false]
    there and then, the waiters that were there before stay, and the
    destructor that follows does not wake the join again.  The form
    without argument has no time to run out. *)
Theorem join_then_destructor (param : option Z) (ticket : nat)
    (error : option Error.t) s :
  inspectReady (sub_ (this s)) (constructor_name (sub_ (this s)) +++ ".join")
    = None ->
  Forall (fun w => ConditionVariable.ticket w <> ticket)
    (join_cv_ (this s)) ->
  let r1 := join param ticket s in
  let r2 := destructor error (after r1) in
  let r3 := expire ticket (after r1) in
  let r4 := destructor error (after r3) in
  outcome r1 = Normal tt
  /\ emitted r1 = []
  /\ In (EvWake ticket
           (match param with Some _ => VBoolean true | None => VUndefined end))
        (emitted r2)
  /\ (forall w, In w (join_cv_ (this s)) ->
        In (EvWake (ConditionVariable.ticket w) (ConditionVariable.released w))
           (emitted r2))
  /\ join_cv_ (this (after r2)) = []
  /\ expire ticket (after r2) = new_result (Normal tt) (after r2) []
  /\ match param with
     | Some _ =>
         outcome r3 = Normal tt
         /\ emitted r3 = [EvWake ticket (VBoolean false)]
         /\ join_cv_ (this (after r3)) = join_cv_ (this s)
         /\ (forall v, ~ In (EvWake ticket v) (emitted r4))
         /\ join_cv_ (this (after r4)) = []
     | None => r3 = new_result (Normal tt) (after r1) []
     end.
Proof.
  intros Hready Hfresh. cbv zeta.
  destruct (expire_fresh ticket _ Hfresh) as [Hnone Hkept].
  rewrite !destructor_run.
  unfold join. run_monad. rewrite Hready. run_monad.
  split; [reflexivity|]. split; [reflexivity|].
  rewrite map_app. cbn [map].
  split; [|split; [|split; [reflexivity | split; [reflexivity|]]]].
  - apply in_or_app. right. apply in_or_app. right. left.
    now destruct param.
  - intros w Hw. apply in_or_app. right. apply in_or_app. left.
    now apply (in_map (fun w => EvWake (ConditionVariable.ticket w)
                                  (ConditionVariable.released w))).
  - unfold expire. run_monad.
    rewrite existsb_app, Hnone. unfold ConditionVariable.expire.
    rewrite filter_app. fold (ConditionVariable.expire ticket (join_cv_ (this s))).
    rewrite Hkept. cbn [existsb filter orb].
    unfold ConditionVariable.expires.
    cbn [ConditionVariable.timed ConditionVariable.ticket].
    destruct param as [delay|]; cbn [andb negb orb].
    + rewrite Nat.eqb_refl. run_monad. cbn [negb app].
      rewrite app_nil_r.
      split; [reflexivity|]. split; [reflexivity|]. split; [reflexivity|].
      split; [|reflexivity].
      intros v Hin. apply in_app_or in Hin as [Hin | Hin].
      * apply in_map_iff in Hin as (entry & Hentry & _). discriminate Hentry.
      * apply in_map_iff in Hin as (w & Hw & Hin).
        injection Hw as Hticket _.
        now apply (proj1 (Forall_forall _ _) Hfresh w Hin).
    + reflexivity.
Qed.

(** X16.  When [sendData] refuses the call message, the call is still
    counted and stays pending: the uid is consumed, the entry is in the
    table, the refusal is left as an unhandled rejection, and neither
    continuation of the promise is called, so the promise stays unsettled
    until a reply or the destructor. *)
Theorem call_send_failure (name : string) (params : list value)
    (resolve reject : FunctionLike) s (exn : value) :
  inspectReady (sub_ (this s)) "Communicator._Call_fuction" = None ->
  snd (sendData (sub_ (this s))
         (call_message (increment (SEQUENCE s)) name params)) = Throw exn ->
  let r := _Call_function name params resolve reject s in
  outcome r = Normal tt
  /\ emitted r = [EvSend (call_message (increment (SEQUENCE s)) name params);
                  EvUnhandledRejection exn]
  /\ SEQUENCE (after r) = increment (SEQUENCE s)
  /\ promises_ (this (after r))
     = HashMap.emplace (increment (SEQUENCE s)) (new_Pair resolve reject)
         (promises_ (this s)).
Proof.
  intros Hready Hsend. cbv zeta. unfold _Call_function. run_monad.
  rewrite Hready. unfold pre_increment_SEQUENCE, send. run_monad.
  unfold call_message in Hsend.
  destruct (sendData (sub_ (this s)) _) as [sub' res].
  cbn [snd] in Hsend. subst res. run_monad. now repeat split.
Qed.

(** X1.  [setProvider] replaces the provider and nothing else: it sends
    nothing, [getProvider] then returns the new object, and the counter,
    the pending-call table, the join coordinator and the state of the
    subclass are kept; the next incoming call is resolved against the new
    object. *)
Theorem setProvider_then_getProvider (obj : value) s :
  let r := setProvider obj s in
  outcome (getProvider (after r)) = Normal obj
  /\ emitted r = []
  /\ SEQUENCE (after r) = SEQUENCE s
  /\ promises_ (this (after r)) = promises_ (this s)
  /\ join_cv_ (this (after r)) = join_cv_ (this s)
  /\ sub_ (this (after r)) = sub_ (this s)
  /\ (forall invoke,
        outcome (find_and_call invoke (after r))
        = outcome (find_and_call invoke
                     (new_frame 0
                        (new_Communicator obj HashMap.empty
                           ConditionVariable.empty (sub_ (this s)))))).
Proof.
  cbv zeta. unfold setProvider, getProvider. run_monad.
  do 6 (split; [reflexivity|]).
  intro invoke. rewrite !find_and_call_unfold. cbn [this provider_].
  destruct (provider_must_be obj) as [provider|exn]; [|reflexivity].
  destruct (walk _ _ VUndefined provider) as [[found|exn] ran];
    [|reflexivity].
  destruct (bind_thisArg (snd found) (fst found)) as [[bound|exn] ran'];
    [|reflexivity].
  cbv zeta. now destruct (callable _).
Qed.

End CallsMore.

(* ================================================================== *)
(** ** Further properties of the connector and of the process *)
(* ================================================================== *)

Lemma inspectReady_hint {Header : Type} (this : ConnectorBase.t Header)
    (method : string) :
  ConnectorBase.inspectReady this method
  = if (ConnectorBase.state_ this =? ConnectorBase.State.OPEN)%Z then None
    else Some (ConnectorBase.diagnostic this method
                 (state_hint (ConnectorBase.state_ this))).
Proof.
  unfold ConnectorBase.inspectReady, state_hint.
  repeat match goal with
         | |- context [Z.eqb ?a ?b] => destruct (Z.eqb a b)
         end; reflexivity.
Qed.

Section ConnectorMore.

Context {host : Host} {Header : Type}.
Variable transport :
  ConnectorBase.t Header -> Invoke.t -> ConnectorBase.t Header * completion unit.

Implicit Types (s : @frame (ConnectorBase.t Header)).

(** X12.  A connector built on [ConnectorBase] transmits calls only while
    its state is [OPEN]: then a driver call hands its call message to the
    transport; in any other state the call hands nothing to the transport,
    changes nothing, and rejects its promise with the error "Error on
    <subclass>.Communicator._Call_fuction(): <hint of the state>". *)
Theorem connector_calls_when_open (name : string) (params : list value)
    (resolve reject : FunctionLike) s :
  let r := _Call_function (derived := ConnectorBase.derived transport)
             name params resolve reject s in
  if (ConnectorBase.state (sub_ (this s)) =? ConnectorBase.State.OPEN)%Z
  then sent (emitted r) = [call_message (increment (SEQUENCE s)) name params]
  else r = new_result (Normal tt) s
             [EvContinue reject
                (VError
                   {| Error.name := "Error";
                      Error.message :=
                        "Error on "
                        +++ ConnectorBase.class_name (sub_ (this s))
                        +++ ".Communicator._Call_fuction(): "
                        +++ state_hint (ConnectorBase.state (sub_ (this s)))
                   |})].
Proof.
  cbv zeta.
  pose proof (inspectReady_hint (sub_ (this s)) "Communicator._Call_fuction")
    as Hready.
  unfold ConnectorBase.state.
  destruct (ConnectorBase.state_ (sub_ (this s)) =? ConnectorBase.State.OPEN)%Z.
  - now destruct (_Call_function_ready
                    (derived := ConnectorBase.derived transport)
                    name params resolve reject s Hready) as (_ & Hsent & _).
  - now rewrite (_Call_function_gated
                   (derived := ConnectorBase.derived transport)
                   name params resolve reject s _ Hready).
Qed.

(** X13.  [join] on a connector built on [ConnectorBase]: while the state
    is [OPEN] it registers one waiter, timed exactly when an argument was
    given, and sends nothing; in any other state it throws, registers
    nothing, and the message names the subclass twice: "Error on
    <subclass>.<subclass>.join(): <hint of the state>". *)
Theorem connector_join (param : option Z) (ticket : nat) s :
  let r := join (derived := ConnectorBase.derived transport) param ticket s in
  if (ConnectorBase.state (sub_ (this s)) =? ConnectorBase.State.OPEN)%Z
  then outcome r = Normal tt
       /\ emitted r = []
       /\ join_cv_ (this (after r))
          = join_cv_ (this s)
            ++ [ConditionVariable.new_waiter ticket
                  (match param with Some _ => true | None => false end)]
       /\ promises_ (this (after r)) = promises_ (this s)
  else r = new_result
             (Throw (VError
                {| Error.name := "Error";
                   Error.message :=
                     "Error on "
                     +++ ConnectorBase.class_name (sub_ (this s)) +++ "."
                     +++ ConnectorBase.class_name (sub_ (this s))
                     +++ ".join(): "
                     +++ state_hint (ConnectorBase.state (sub_ (this s))) |}))
             s [].
Proof.
  cbv zeta. unfold join. run_monad.
  cbn [inspectReady constructor_name ConnectorBase.derived].
  rewrite inspectReady_hint. unfold ConnectorBase.state.
  destruct (ConnectorBase.state_ (sub_ (this s)) =? ConnectorBase.State.OPEN)%Z.
  - run_monad. now repeat split.
  - run_monad. unfold ConnectorBase.diagnostic, new_Error.
    now rewrite !append_assoc.
Qed.

End ConnectorMore.

Lemma NoDup_app_inv {A : Type} (l1 l2 : list A) :
  NoDup (l1 ++ l2) <->
  NoDup l1 /\ NoDup l2 /\ (forall x, In x l1 -> ~ In x l2).
Proof.
  induction l1 as [|a l1 IH]; simpl.
  - split; [intro H; repeat split; [constructor | exact H | intros x []]
           | now intros (_ & H & _)].
  - split.
    + intro H. inversion H as [|? ? Hnotin Hrest]; subst.
      apply IH in Hrest as (H1 & H2 & Hdisj).
      repeat split; [| exact H2 |].
      * constructor; [|exact H1]. intro Hin. apply Hnotin.
        apply in_or_app. now left.
      * intros x [<- | Hin] Hin2; [|now apply (Hdisj x)].
        apply Hnotin. apply in_or_app. now right.
    + intros (H1 & H2 & Hdisj).
      inversion H1 as [|? ? Hnotin Hrest]; subst.
      constructor.
      * intro Hin. apply in_app_or in Hin as [Hin | Hin];
          [now apply Hnotin | now apply (Hdisj a); [left|]].
      * apply IH. repeat split; try assumption.
        intros x Hin. apply Hdisj. now right.
Qed.

(** Narrowing one block of a duplicate-free list keeps it duplicate-free. *)
Lemma NoDup_narrow {A : Type} (a k k' b : list A) :
  NoDup (a ++ k ++ b) -> incl k' k -> NoDup k' -> NoDup (a ++ k' ++ b).
Proof.
  intros H Hincl Hk'.
  apply NoDup_app_inv in H as (Ha & Hkb & Hdisj).
  apply NoDup_app_inv in Hkb as (Hk & Hb & Hdisj').
  apply NoDup_app_inv. repeat split; [exact Ha | | ].
  - apply NoDup_app_inv. repeat split; try assumption.
    intros x Hin. apply Hdisj'. now apply Hincl.
  - intros x Hin Hin'. apply (Hdisj x Hin).
    apply in_app_or in Hin' as [Hin' | Hin']; apply in_or_app;
      [left; now apply Hincl | now right].
Qed.

(** Appending a new element to one block keeps it duplicate-free. *)
Lemma NoDup_extend {A : Type} (a k b : list A) (x : A) :
  NoDup (a ++ k ++ b) -> ~ In x (a ++ k ++ b) ->
  NoDup (a ++ (k ++ [x]) ++ b).
Proof.
  intros H Hfresh.
  assert (Hxa : ~ In x a) by (intro; apply Hfresh, in_or_app; now left).
  assert (Hxk : ~ In x k)
    by (intro; apply Hfresh, in_or_app; right; apply in_or_app; now left).
  assert (Hxb : ~ In x b)
    by (intro; apply Hfresh, in_or_app; right; apply in_or_app; now right).
  apply NoDup_app_inv in H as (Ha & Hkb & Hdisj).
  apply NoDup_app_inv in Hkb as (Hk & Hb & Hdisj').
  apply NoDup_app_inv. repeat split; [exact Ha | | ].
  - apply NoDup_app_inv. repeat split; [ | exact Hb | ].
    + apply NoDup_app_inv. repeat split; [exact Hk | repeat constructor; intros [] | ].
      intros y Hy [<- | []]. contradiction.
    + intros y Hy. apply in_app_or in Hy as [Hy | [<- | []]];
        [now apply Hdisj' | exact Hxb].
  - intros y Hy Hy'. apply (Hdisj y Hy).
    apply in_app_or in Hy' as [Hy' | Hy'].
    + apply in_app_or in Hy' as [Hy' | [<- | []]];
        [apply in_or_app; now left | contradiction].
    + apply in_or_app. now right.
Qed.

Lemma replace_nth_app {A : Type} (l1 l2 : list A) (c x : A) :
  replace_nth (List.length l1) x (l1 ++ c :: l2) = l1 ++ x :: l2.
Proof. induction l1 as [|y l1 IH]; simpl; [reflexivity | now rewrite IH]. Qed.

Section UidsMore.

Context {host : Host} {Sub : Type} {derived : Derived Sub}.

Implicit Types (s : @frame Sub) (c : @Communicator Sub) (p : @process Sub).

(** The outstanding uids around the [i]-th communicator. *)
Lemma outstanding_around (i : nat) c p :
  nth_error (objects p) i = Some c ->
  exists a b,
    outstanding p = a ++ HashMap.keys (promises_ c) ++ b
    /\ forall N c',
         outstanding (new_process N (replace_nth i c' (objects p)))
         = a ++ HashMap.keys (promises_ c') ++ b.
Proof.
  intro Hnth. apply nth_error_split in Hnth as (l1 & l2 & Hsplit & Hlen).
  exists (flat_map (fun c => HashMap.keys (promises_ c)) l1),
         (flat_map (fun c => HashMap.keys (promises_ c)) l2).
  unfold outstanding. rewrite Hsplit. split.
  - now rewrite flat_map_app.
  - intros N c'. cbn [objects]. rewrite <- Hlen, replace_nth_app.
    now rewrite flat_map_app.
Qed.

Lemma on_object_pool_quiet {A : Type} (i : nat) (m : M A) p :
  quiet m -> pool_ok p -> pool_ok (fst (on_object i m p)).
Proof.
  intros Hquiet [Hnodup Hbound]. unfold on_object.
  destruct (nth_error (objects p) i) as [c|] eqn:Hnth; [|now split].
  destruct (Hquiet (new_frame (static_SEQUENCE p) c))
    as (Hseq & _ & Hincl & Hkeys).
  destruct (outstanding_around i c p Hnth) as (a & b & Hbefore & Hafter).
  cbn [fst SEQUENCE this] in *. unfold pool_ok.
  rewrite Hafter. cbn [static_SEQUENCE]. rewrite Hseq, Hbefore in *.
  split.
  - apply (NoDup_narrow _ _ _ _ Hnodup Hincl).
    apply Hkeys.
    apply NoDup_app_inv in Hnodup as (_ & Hkb & _).
    now apply NoDup_app_inv in Hkb as (Hk & _).
  - apply Forall_forall. intros k Hk.
    apply (proj1 (Forall_forall _ _) Hbound).
    apply in_app_or in Hk as [Hk | Hk]; apply in_or_app; [now left|right].
    apply in_app_or in Hk as [Hk | Hk]; apply in_or_app;
      [left; now apply Hincl | now right].
Qed.

Lemma perform_pool (a : action) p :
  pool_ok p ->
  static_SEQUENCE (fst (perform a p)) <= MAX_SAFE_INTEGER ->
  pool_ok (fst (perform a p)).
Proof.
  intros Hok Hsafe.
  destruct a as [provider sub|i name params promise|i invoke|i error|i obj
                |i param ticket|i ticket|i sub]; cbn [perform] in *.
  - destruct Hok as [Hnodup Hbound]. unfold pool_ok, outstanding in *.
    cbn [fst static_SEQUENCE objects]. rewrite flat_map_app. cbn.
    now rewrite app_nil_r.
  - unfold on_object in *.
    destruct (nth_error (objects p) i) as [c|] eqn:Hnth; [|exact Hok].
    set (s := new_frame (static_SEQUENCE p) c) in *.
    destruct (outstanding_around i c p Hnth) as (a & b & Hbefore & Hafter).
    destruct Hok as [Hnodup Hbound]. unfold pool_ok.
    cbn [fst static_SEQUENCE] in *. rewrite Hafter.
    destruct (inspectReady (sub_ c) "Communicator._Call_fuction")
      as [error|] eqn:Hready.
    + rewrite (_Call_function_gated name params
                 (resolve_of promise) (reject_of promise) s error Hready) in *.
      cbn [after this SEQUENCE s]. now rewrite <- Hbefore.
    + destruct (_Call_function_ready name params
                  (resolve_of promise) (reject_of promise) s Hready)
        as (_ & _ & Hseq & Hpromises & _).
      cbv zeta in *. rewrite Hseq in *. cbn [SEQUENCE this s] in *.
      rewrite (increment_exact _ Hsafe) in *.
      assert (Hfresh : ~ In (static_SEQUENCE p + 1) (outstanding p)).
      { intro Hin. apply (proj1 (Forall_forall _ _) Hbound) in Hin. lia. }
      assert (Hfresh' : ~ In (static_SEQUENCE p + 1)
                          (HashMap.keys (promises_ c))).
      { intro Hin. apply Hfresh. rewrite Hbefore.
        apply in_or_app. right. apply in_or_app. now left. }
      rewrite Hpromises, (emplace_fresh _ _ _ Hfresh').
      unfold HashMap.keys. rewrite map_app. cbn [map fst].
      fold (HashMap.keys (promises_ c)). rewrite Hbefore in *.
      split.
      * now apply NoDup_extend.
      * apply Forall_forall. intros k Hk.
        assert (Hcases : In k (a ++ HashMap.keys (promises_ c) ++ b)
                         \/ k = static_SEQUENCE p + 1).
        { apply in_app_or in Hk as [Hk | Hk];
            [left; apply in_or_app; now left|].
          apply in_app_or in Hk as [Hk | Hk];
            [|left; apply in_or_app; right; apply in_or_app; now right].
          apply in_app_or in Hk as [Hk | [<- | []]];
            [left; apply in_or_app; right; apply in_or_app; now left
            | now right]. }
        destruct Hcases as [Hin | ->]; [|lia].
        apply (proj1 (Forall_forall _ _) Hbound) in Hin. lia.
  - apply on_object_pool_quiet; [apply replyData_quiet | exact Hok].
  - apply on_object_pool_quiet; [apply destructor_quiet | exact Hok].
  - apply on_object_pool_quiet; [apply setProvider_quiet | exact Hok].
  - apply on_object_pool_quiet; [apply join_quiet | exact Hok].
  - apply on_object_pool_quiet; [apply expire_quiet | exact Hok].
  - apply on_object_pool_quiet; [apply set_sub__quiet | exact Hok].
Qed.

Lemma run_pool (acts : list action) p :
  pool_ok p ->
  static_SEQUENCE (fst (run acts p)) <= MAX_SAFE_INTEGER ->
  pool_ok (fst (run acts p)).
Proof.
  revert p. induction acts as [|a acts IH]; intros p Hok Hsafe; [exact Hok|].
  rewrite run_cons in *. cbn [fst] in *.
  apply IH; [|exact Hsafe].
  apply perform_pool; [exact Hok|].
  pose proof (run_mono acts (fst (perform a p))). lia.
Qed.

(** X18.  A uid is outstanding in at most one communicator.  After any
    sequence of actions on a fresh process that leaves the shared counter
    a safe integer, the pending-call tables of two different communicators
    have no uid in common (and all the outstanding uids of the process are
    pairwise distinct). *)
Theorem uids_are_process_wide (acts : list action) (i j : nat) c c' :
  let p := fst (run acts boot) in
  static_SEQUENCE p <= MAX_SAFE_INTEGER ->
  i <> j ->
  nth_error (objects p) i = Some c ->
  nth_error (objects p) j = Some c' ->
  NoDup (outstanding p)
  /\ forall uid,
       In uid (HashMap.keys (promises_ c)) ->
       ~ In uid (HashMap.keys (promises_ c')).
Proof.
  intros p Hsafe Hij Hi Hj.
  assert (Hboot : pool_ok (@boot Sub)) by (split; constructor).
  destruct (run_pool acts boot Hboot Hsafe) as [Hnodup _]. fold p in Hnodup.
  split; [exact Hnodup|].
  intros uid Hin Hin'.
  pose proof Hi as Hsplit.
  apply nth_error_split in Hsplit as (l1 & l2 & Hobjects & Hlen).
  unfold outstanding in Hnodup. rewrite Hobjects in Hnodup, Hj.
  rewrite flat_map_app in Hnodup. cbn [flat_map] in Hnodup.
  apply NoDup_app_inv in Hnodup as (_ & Hkb & Hdisj).
  apply NoDup_app_inv in Hkb as (_ & _ & Hdisj').
  destruct (Nat.lt_ge_cases j (List.length l1)) as [Hlt | Hge].
  - rewrite nth_error_app1 in Hj by exact Hlt.
    apply nth_error_In in Hj.
    apply (Hdisj uid).
    + apply in_flat_map. now exists c'.
    + apply in_or_app. now left.
  - rewrite nth_error_app2 in Hj by exact Hge.
    destruct (j - List.length l1)%nat as [|n] eqn:Hdiff; [lia|].
    cbn [nth_error] in Hj. apply nth_error_In in Hj.
    apply (Hdisj' uid Hin). apply in_flat_map. now exists c'.
Qed.

End UidsMore.

(* ================================================================== *)
(** ** The further properties at work on the example connector *)
(* ================================================================== *)

Lemma provider_call_is_bound_witness :
  In (EvProvider (VFunction 1) (VObject [("add", VFunction 1)])
        [VNumber 2; VNumber 3])
     (emitted (replyData (host := Example.host) (derived := Example.derived)
                 (Invoke.Function
                    (Example.call 5 "math.add" [VNumber 2; VNumber 3]))
                 Example.online))
  /\ exists pre name owner target bound,
       split "."%char "math.add" = pre ++ [name]
       /\ Forall (fun segment => ~ private_segment segment) (pre ++ [name])
       /\ fst (walk (host := Example.host) "math.add" pre VUndefined
                 Example.provider) = Normal owner
       /\ fst (get_member (host := Example.host) (snd owner) name)
          = Normal target
       /\ fst (bind_thisArg (host := Example.host) target (snd owner))
          = Normal bound
       /\ (VFunction 1, VObject [("add", VFunction 1)])
          = bound_target bound VUndefined
       /\ callable (VFunction 1) = true
       /\ [VNumber 2; VNumber 3]
          = parameter_values
              (Example.call 5 "math.add" [VNumber 2; VNumber 3])
       /\ (no_own_bind (host := Example.host) target ->
           callable target = true
           /\ (VFunction 1, VObject [("add", VFunction 1)])
              = bound_target target (snd owner)).
Proof.
  assert (Hin : In (EvProvider (VFunction 1) (VObject [("add", VFunction 1)])
                      [VNumber 2; VNumber 3])
                   (emitted (replyData (host := Example.host)
                               (derived := Example.derived)
                               (Invoke.Function
                                  (Example.call 5 "math.add"
                                     [VNumber 2; VNumber 3]))
                               Example.online))).
  { left. reflexivity. }
  split; [exact Hin|].
  exact (provider_call_is_bound (host := Example.host)
           (derived := Example.derived) _ _ _ _ _ Hin).
Defined.

(** A target with a [bind] of its own: that [bind] runs, on the target and
    with the receiver, and what it returns is called in place of the
    target. *)
Example own_bind_runs :
  callable (member (Host := Example.host) Example.vault "maker") = false
  /\ emitted (replyData (host := Example.host) (derived := Example.derived)
                (Invoke.Function (Example.call 4 "maker" []))
                Example.vaulted)
     = [EvOwnBind (VFunction 6) (VObject [("bind", VFunction 6)])
          Example.vault;
        EvProvider (VFunction 7) VUndefined [];
        EvSend (Invoke.Return
                  (Invoke.IReturn.make 4 true (VString "made")))].
Proof. split; reflexivity. Qed.

(** The members of functions: [echo.call] is called on [echo], as the
    receiver the walk left, with the first parameter as [this]. *)
Example scenario_call_of_a_function :
  emitted (replyData (host := Example.host) (derived := Example.derived)
             (Invoke.Function
                (Example.call 4 "echo.call" [VNull; VNumber 7]))
             Example.online)
  = [EvProvider (VNative Function_prototype_call) (VFunction 0)
       [VNull; VNumber 7];
     EvSend (Invoke.Return (Invoke.IReturn.make 4 true (VNumber 7)))].
Proof. reflexivity. Qed.

Lemma positive_return_witness :
  outcome (find_and_call (host := Example.host)
             (Example.call 5 "echo" [VError (new_Error "kept")])
             Example.online)
  = Normal (VError (new_Error "kept"))
  /\ sent (emitted (_Handle_function (host := Example.host)
                      (derived := Example.derived)
                      (Example.call 5 "echo" [VError (new_Error "kept")])
                      Example.online))
     = [Invoke.Return
          (Invoke.IReturn.make 5 true (VError (new_Error "kept")))].
Proof.
  split; [reflexivity|].
  apply (positive_return (host := Example.host) (derived := Example.derived)
           (Example.call 5 "echo" [VError (new_Error "kept")])
           Example.online (VError (new_Error "kept")) eq_refl eq_refl).
Defined.

Lemma provider_missing_witness :
  "echo" <> ""
  /\ provider_ (this Example.unprovided) = VUndefined
  /\ emitted (replyData (host := Example.host) (derived := Example.derived)
                (Invoke.Function (Example.call 9 "echo" [VNumber 1]))
                Example.unprovided)
     = [EvSend (Invoke.Return
          (Invoke.IReturn.make 9 false
             (VObject
                [("name", VString "Error");
                 ("message", VString "Error on Communicator._Handle_function(): the provider is not specified yet.")])))].
Proof.
  assert (Hlistener : "echo" <> "") by discriminate.
  split; [exact Hlistener|]. split; [reflexivity|].
  exact (provider_missing (host := Example.host) (derived := Example.derived)
           (Example.call 9 "echo" [VNumber 1]) Example.unprovided
           Hlistener (or_introl eq_refl)).
Defined.

Lemma target_not_callable_witness :
  walk (host := Example.host) "math" (split "."%char "math") VUndefined
    Example.provider
  = (Normal (Example.provider, VObject [("add", VFunction 1)]), [])
  /\ no_own_bind (host := Example.host) (VObject [("add", VFunction 1)])
  /\ exists e,
       Error.name e = "TypeError"
       /\ emitted (replyData (host := Example.host)
                     (derived := Example.derived)
                     (Invoke.Function (Example.call 9 "math" []))
                     Example.online)
          = [] ++ [EvSend (Invoke.Return
                     (Invoke.IReturn.make 9 false
                        (Example.example_serializeError (VError e))))]
       /\ function_calls
            (emitted (replyData (host := Example.host)
                        (derived := Example.derived)
                        (Invoke.Function (Example.call 9 "math" []))
                        Example.online)) = []
       /\ outcome (replyData (host := Example.host)
                     (derived := Example.derived)
                     (Invoke.Function (Example.call 9 "math" []))
                     Example.online) = Normal tt.
Proof.
  assert (Hown : no_own_bind (host := Example.host)
                   (VObject [("add", VFunction 1)])).
  { split; [reflexivity | right; reflexivity]. }
  split; [reflexivity|]. split; [exact Hown|].
  apply (target_not_callable (host := Example.host)
           (derived := Example.derived) (Example.call 9 "math" [])
           Example.online
           (Example.provider, VObject [("add", VFunction 1)]) []).
  - discriminate.
  - discriminate.
  - discriminate.
  - reflexivity.
  - reflexivity.
  - exact Hown.
Defined.

Lemma parameter_types_ignored_witness :
  replyData (host := Example.host) (derived := Example.derived)
    (Invoke.Function
       (Invoke.IFunction.make 5 "echo"
          [Invoke.IParameter.make "number" (VNumber 42)]))
    Example.online
  = replyData (host := Example.host) (derived := Example.derived)
      (Invoke.Function
         (Invoke.IFunction.make 5 "echo"
            [Invoke.IParameter.make "string" (VNumber 42)]))
      Example.online.
Proof.
  apply (parameter_types_ignored (host := Example.host)
           (derived := Example.derived)); reflexivity.
Defined.

Lemma driver_path_splits_back_witness :
  exists listener,
    driver_path ["math"; "add"] = Some (Normal (NProxy listener))
    /\ split "."%char listener = ["math"; "add"].
Proof.
  apply (driver_path_splits_back "math" ["add"]).
  - discriminate.
  - constructor; [|constructor]. repeat split; discriminate.
  - repeat constructor.
Defined.

Lemma meta_methods_forward_witness :
  array_like (Host := Example.host) (VArray [VNumber 2; VNumber 3])
  = Normal [VNumber 2; VNumber 3]
  /\ node_call (host := Example.host) (derived := Example.derived)
       (NApply "math.add") [VNull; VArray [VNumber 2; VNumber 3]]
       (resolve_of 0) (reject_of 0) Example.online
     = node_call (host := Example.host) (derived := Example.derived)
         (_Proxy_func "math.add") [VNumber 2; VNumber 3]
         (resolve_of 0) (reject_of 0) Example.online.
Proof.
  split; [reflexivity|].
  destruct (meta_methods_forward (host := Example.host)
              (derived := Example.derived) "math.add" VNull
              [VNumber 2; VNumber 3] [] (resolve_of 0) (reject_of 0)
              Example.online) as (_ & _ & n & Hget & Happly).
  injection Hget as <-.
  apply (Happly (VArray [VNumber 2; VNumber 3])).
  - reflexivity.
  - discriminate.
  - discriminate.
Defined.

Lemma call_then_reply_witness :
  inspectReady (Derived := Example.derived) (sub_ (this Example.busy))
    "Communicator._Call_fuction" = None
  /\ SEQUENCE Example.busy <= MAX_SAFE_INTEGER
  /\ Forall (fun k => k <= SEQUENCE Example.busy)
       (HashMap.keys (promises_ (this Example.busy)))
  /\ emitted (replyData (host := Example.host) (derived := Example.derived)
                (Invoke.Return (Invoke.IReturn.make 3 false (VString "no")))
                (after (_Call_function (derived := Example.derived)
                          "echo" [] (resolve_of 30) (reject_of 30)
                          Example.busy)))
     = [EvContinue (reject_of 30) (VString "no")].
Proof.
  assert (Hsafe : SEQUENCE Example.busy <= MAX_SAFE_INTEGER)
    by (vm_compute; discriminate).
  assert (Hkeys : Forall (fun k => k <= SEQUENCE Example.busy)
                    (HashMap.keys (promises_ (this Example.busy)))).
  { repeat constructor; vm_compute; discriminate. }
  split; [reflexivity|]. split; [exact Hsafe|]. split; [exact Hkeys|].
  apply (proj1 (proj2 (call_then_reply (host := Example.host)
                         (derived := Example.derived) "echo" []
                         (resolve_of 30) (reject_of 30) Example.busy false
                         (VString "no") eq_refl Hsafe Hkeys))).
Defined.

Lemma duplicate_reply_ignored_witness :
  NoDup (HashMap.keys (promises_ (this Example.busy)))
  /\ emitted (replyData (host := Example.host) (derived := Example.derived)
                (Invoke.Return (Invoke.IReturn.make 1 false VNull))
                (after (replyData (host := Example.host)
                          (derived := Example.derived)
                          (Invoke.Return
                             (Invoke.IReturn.make 1 true (VNumber 7)))
                          Example.busy)))
     = [].
Proof.
  assert (Hnodup : NoDup (HashMap.keys (promises_ (this Example.busy)))).
  { repeat constructor; simpl; intuition discriminate. }
  split; [exact Hnodup|].
  rewrite (duplicate_reply_ignored (host := Example.host)
             (derived := Example.derived)
             (Invoke.IReturn.make 1 true (VNumber 7))
             (Invoke.IReturn.make 1 false VNull) Example.busy Hnodup eq_refl).
  reflexivity.
Defined.

Lemma join_then_destructor_witness :
  inspectReady (Derived := Example.derived) (sub_ (this Example.busy))
    "WebSocketConnector.join" = None
  /\ Forall (fun w => ConditionVariable.ticket w <> 5%nat)
       (join_cv_ (this Example.busy))
  /\ In (EvWake 5 (VBoolean true))
        (emitted (destructor None
                    (after (join (derived := Example.derived) (Some 20) 5
                              Example.busy))))
  /\ emitted (expire 5
                (after (join (derived := Example.derived) (Some 20) 5
                          Example.busy)))
     = [EvWake 5 (VBoolean false)]
  /\ (forall v,
        ~ In (EvWake 5 v)
            (emitted (destructor None
                        (after (expire 5
                                  (after (join (derived := Example.derived)
                                            (Some 20) 5 Example.busy))))))).
Proof.
  assert (Hfresh : Forall (fun w => ConditionVariable.ticket w <> 5%nat)
                     (join_cv_ (this Example.busy))).
  { repeat constructor; cbn; lia. }
  split; [reflexivity|]. split; [exact Hfresh|].
  destruct (join_then_destructor (derived := Example.derived) (Some 20) 5
              None Example.busy eq_refl Hfresh)
    as (_ & _ & Hwake & _ & _ & _ & _ & Hexpired & _ & Hnot & _).
  split; [exact Hwake|]. split; [exact Hexpired | exact Hnot].
Defined.

(** The timer of a timed join that fires first: the join resolves with
    [false], and the destructor wakes the two waiters that are left. *)
Example scenario_join_times_out :
  snd (run (host := Example.host) (derived := Example.derived)
         [AJoin 0 (Some 20) 5; AExpire 0 5; ADestructor 0 None]
         (new_process 0 [this Example.busy]))
  = [EvWake 5 (VBoolean false);
     EvContinue (reject_of 10) (VError (new_Error "Connection has been closed."));
     EvContinue (reject_of 20) (VError (new_Error "Connection has been closed."));
     EvWake 7 VUndefined;
     EvWake 8 (VBoolean true)].
Proof. reflexivity. Qed.

Lemma call_send_failure_witness :
  snd (sendData (Derived := Example.derived) (sub_ (this Example.jammed))
         (call_message (increment (SEQUENCE Example.jammed)) "echo" []))
  = Throw Example.socket_error
  /\ emitted (_Call_function (derived := Example.derived) "echo" []
                (resolve_of 0) (reject_of 0) Example.jammed)
     = [EvSend (call_message 1 "echo" []);
        EvUnhandledRejection Example.socket_error].
Proof.
  split; [reflexivity|].
  apply (call_send_failure (derived := Example.derived) "echo" []
           (resolve_of 0) (reject_of 0) Example.jammed Example.socket_error
           eq_refl eq_refl).
Defined.

Lemma uids_are_process_wide_witness :
  map (fun c => HashMap.keys (promises_ c))
      (objects (fst (run (host := Example.host)
                       (derived := ExampleBase.derived)
                       ExampleBase.pair_session boot)))
  = [[1; 3]; [2]]
  /\ NoDup (outstanding (fst (run (host := Example.host)
                                (derived := ExampleBase.derived)
                                ExampleBase.pair_session boot))).
Proof.
  split; [reflexivity|].
  assert (Hsafe : static_SEQUENCE
                    (fst (run (host := Example.host)
                            (derived := ExampleBase.derived)
                            ExampleBase.pair_session boot))
                  <= MAX_SAFE_INTEGER) by (vm_compute; discriminate).
  assert (Hij : 0%nat <> 1%nat) by discriminate.
  destruct (nth_error (objects (fst (run (host := Example.host)
                                       (derived := ExampleBase.derived)
                                       ExampleBase.pair_session boot))) 0)
    as [c|] eqn:Hc; [|discriminate Hc].
  destruct (nth_error (objects (fst (run (host := Example.host)
                                       (derived := ExampleBase.derived)
                                       ExampleBase.pair_session boot))) 1)
    as [c'|] eqn:Hc'; [|discriminate Hc'].
  exact (proj1 (uids_are_process_wide (host := Example.host)
                  (derived := ExampleBase.derived)
                  ExampleBase.pair_session 0 1 c c' Hsafe Hij Hc Hc')).
Defined.

Example connector_not_open :
  _Call_function (derived := ExampleBase.derived) "echo" []
    (resolve_of 0) (reject_of 0)
    (ExampleBase.connector ConnectorBase.State.CLOSING)
  = new_result (Normal tt) (ExampleBase.connector ConnectorBase.State.CLOSING)
      [EvContinue (reject_of 0)
         (VError (new_Error
            "Error on SharedWorkerConnector.Communicator._Call_fuction(): the connection is on closing."))].
Proof. reflexivity. Qed.

Example connector_join_closed :
  outcome (join (derived := ExampleBase.derived) None 0
             (ExampleBase.connector ConnectorBase.State.CLOSED))
  = Throw (VError (new_Error
      "Error on SharedWorkerConnector.SharedWorkerConnector.join(): the connection has been closed.")).
Proof. reflexivity. Qed.

(* ================================================================== *)
(** ** Settlement: no promise is settled twice *)
(* ================================================================== *)

Lemma settled_app (evs1 evs2 : list event) :
  settled (evs1 ++ evs2) = settled evs1 ++ settled evs2.
Proof.
  induction evs1 as [|ev evs1 IH]; [reflexivity|].
  destruct ev; simpl; now rewrite ?IH.
Qed.

Lemma settled_sent_only (evs : list event) :
  (forall ev, In ev evs ->
     match ev with EvContinue _ _ => False | _ => True end) ->
  settled evs = [].
Proof.
  induction evs as [|ev evs IH]; intro H; [reflexivity|].
  destruct ev; simpl;
    try (apply IH; intros ev' Hin; apply H; now right).
  exfalso. apply (H (EvContinue f v)). now left.
Qed.

Lemma erase_found (key : Z) (m : HashMap.t) (it : Pair) :
  HashMap.find key m = Some it ->
  exists m1 m2, m = m1 ++ (key, it) :: m2 /\ HashMap.erase key m = m1 ++ m2.
Proof.
  induction m as [|[k v] rest IH]; simpl; [discriminate|].
  destruct (Z.eqb_spec k key) as [-> | Hne].
  - intros [= ->]. now exists [], rest.
  - intro Hfind. destruct (IH Hfind) as (m1 & m2 & -> & Herase).
    exists ((k, v) :: m1), m2. simpl. now rewrite Herase.
Qed.

Lemma perm_around {A : Type} (x e a k k' b : list A) :
  Permutation (x ++ k') (e ++ k) ->
  Permutation (x ++ a ++ k' ++ b) (e ++ a ++ k ++ b).
Proof.
  intro H.
  rewrite (Permutation_app_swap_app x a), (Permutation_app_swap_app e a).
  apply Permutation_app_head. rewrite !app_assoc.
  now apply Permutation_app_tail.
Qed.

Lemma flat_map_around {A B : Type} (f : A -> list B) (i : nat) (c : A)
    (l : list A) :
  nth_error l i = Some c ->
  exists a b,
    flat_map f l = a ++ f c ++ b
    /\ forall c', flat_map f (replace_nth i c' l) = a ++ f c' ++ b.
Proof.
  intro Hnth. apply nth_error_split in Hnth as (l1 & l2 & -> & <-).
  exists (flat_map f l1), (flat_map f l2). split.
  - now rewrite flat_map_app.
  - intro c'. now rewrite replace_nth_app, flat_map_app.
Qed.

Section Settlement.

Context {host : Host} {Sub : Type} {derived : Derived Sub}.

Implicit Types (s : @frame Sub) (c : @Communicator Sub) (p : @process Sub).

Lemma books_still {A : Type} (m : M A) :
  (forall s, promises_ (this (after (m s))) = promises_ (this s)
             /\ settled (emitted (m s)) = []) ->
  books (Sub := Sub) [] m.
Proof.
  intros H s Hpaired. destruct (H s) as [-> ->].
  split; [exact Hpaired|]. exists []. split; [now left | reflexivity].
Qed.

Lemma get_member_settles_nothing (thisArg : value) (name : string) :
  settled (snd (get_member thisArg name)) = [].
Proof. now destruct (get_member_ran thisArg name) as [-> | ->]. Qed.

Lemma walk_settles_nothing (listener : string) (routes : list string)
    (thisArg func : value) :
  settled (snd (walk listener routes thisArg func)) = [].
Proof.
  revert thisArg func.
  induction routes as [|name routes IH]; intros thisArg func; [reflexivity|].
  cbn [walk]. pose proof (get_member_settles_nothing func name) as Hget.
  destruct (get_member func name) as [[func'|exn] ran]; cbn [snd] in *;
    [|exact Hget].
  destruct (security_error listener name func'); cbn [snd]; [exact Hget|].
  now rewrite settled_app, Hget, IH.
Qed.

Lemma bind_thisArg_settles_nothing (func thisArg : value) :
  settled (snd (bind_thisArg func thisArg)) = [].
Proof.
  unfold bind_thisArg.
  pose proof (get_member_settles_nothing func "bind") as Hget.
  destruct (get_member func "bind") as [[bind_|exn] ran]; cbn [snd] in *;
    [|exact Hget].
  repeat match goal with
         | |- context [if ?b then _ else _] => destruct b
         end;
    cbn [snd]; rewrite ?settled_app, ?Hget; reflexivity.
Qed.

Lemma find_and_call_settles_nothing (invoke : Invoke.IFunction.t) s :
  settled (emitted (find_and_call invoke s)) = [].
Proof.
  rewrite find_and_call_unfold.
  destruct (provider_must_be _) as [provider|exn]; [|reflexivity].
  pose proof (walk_settles_nothing (Invoke.IFunction.listener invoke)
                (split "."%char (Invoke.IFunction.listener invoke))
                VUndefined provider) as Hwalked.
  destruct (walk _ _ VUndefined provider) as [[found|exn] ran];
    cbn [snd] in *; [|exact Hwalked].
  pose proof (bind_thisArg_settles_nothing (snd found) (fst found)) as Hbound.
  destruct (bind_thisArg _ _) as [[bound|exn] ran']; cbn [snd] in *.
  - cbv zeta. destruct (callable _); cbn [emitted];
      now rewrite !settled_app, Hwalked, Hbound.
  - cbn [emitted]. now rewrite settled_app, Hwalked, Hbound.
Qed.

Lemma replyData_books (invoke : Invoke.t) :
  books (Sub := Sub) [] (replyData invoke).
Proof.
  assert (Hreturn : forall r, books (Sub := Sub) [] (_Handle_return r)).
  { intros r s Hpaired. unfold _Handle_return. run_monad.
    destruct (HashMap.find _ _) as [it|] eqn:Hfind; run_monad.
    - destruct (erase_found _ _ _ Hfind) as (m1 & m2 & Hm & Herase).
      rewrite Herase, Hm in *.
      unfold paired in *. rewrite Forall_app in Hpaired.
      destruct Hpaired as [H1 H2]. inversion H2 as [|? ? Hit H2']; subst.
      cbn [snd] in Hit. split; [apply Forall_app; now split|].
      exists []. split; [now left|].
      cbn [settled app]. unfold waiting. rewrite !map_app. cbn [map snd].
      replace (promise_of (if Invoke.IReturn.success r
                           then first it else second it))
        with (promise_of (second it)) by (now destruct (Invoke.IReturn.success r)).
      apply Permutation_middle.
    - split; [exact Hpaired|]. exists []. split; [now left | reflexivity]. }
  destruct invoke as [f|r]; unfold replyData; [|apply Hreturn].
  destruct (Invoke.has_listener _); [|apply Hreturn].
  apply books_still. intro s.
  destruct (find_and_call_frame f s) as (Hafter & _ & _).
  pose proof (find_and_call_settles_nothing f s) as Hnone.
  unfold _Handle_function, _Send_return, send. run_monad.
  destruct (find_and_call f s) as [[ret_|exn] a evs];
    cbn [outcome after emitted] in *; subst a.
  - destruct (sendData (sub_ (this s)) _) as [sub1 [[]|exn1]]; run_monad;
      [|destruct (sendData sub1 _) as [sub2 [[]|exn2]]; run_monad];
      (split; [reflexivity|]); rewrite ?settled_app, Hnone; reflexivity.
  - destruct (sendData (sub_ (this s)) _) as [sub1 [[]|exn1]]; run_monad;
      (split; [reflexivity|]); rewrite ?settled_app, Hnone; reflexivity.
Qed.

Lemma destructor_books (error : option Error.t) :
  books (Sub := Sub) [] (destructor error).
Proof.
  intros s Hpaired. rewrite destructor_run.
  cbn [after emitted this promises_]. split; [constructor|].
  exists []. split; [now left|].
  rewrite settled_app. cbn [app waiting map]. rewrite !app_nil_r.
  replace (settled (map _ (join_cv_ (this s)))) with (@nil nat)
    by (induction (join_cv_ (this s)); simpl; trivial).
  rewrite app_nil_r. unfold waiting.
  induction (promises_ (this s)) as [|entry rest IH]; [reflexivity|].
  cbn [map settled]. apply perm_skip. apply IH.
  now inversion Hpaired.
Qed.

Lemma _Call_function_books (name : string) (params : list value)
    (promise : nat) :
  books (Sub := Sub) [promise]
    (_Call_function name params (resolve_of promise) (reject_of promise)).
Proof.
  intros s Hpaired.
  destruct (inspectReady (sub_ (this s)) "Communicator._Call_fuction")
    as [error|] eqn:Hready.
  - rewrite (_Call_function_gated _ _ _ _ _ _ Hready).
    cbn [after emitted settled promise_of]. split; [exact Hpaired|].
    exists [promise]. split; [now right | reflexivity].
  - unfold _Call_function. run_monad. rewrite Hready.
    unfold pre_increment_SEQUENCE, send. run_monad.
    assert (Hemplace :
      let m' := HashMap.emplace (increment (SEQUENCE s))
                  (new_Pair (resolve_of promise) (reject_of promise))
                  (promises_ (this s)) in
      paired m'
      /\ exists extra,
           (extra = [] \/ extra = [promise])
           /\ Permutation (waiting m') (extra ++ waiting (promises_ (this s)))).
    { cbv zeta. unfold HashMap.emplace.
      destruct (HashMap.has _ _).
      - split; [exact Hpaired|]. exists []. split; [now left | reflexivity].
      - split; [apply Forall_app; split; [exact Hpaired | now repeat constructor]|].
        exists [promise]. split; [now right|].
        unfold waiting. rewrite map_app. cbn [map snd second promise_of].
        apply Permutation_app_comm. }
    cbv zeta in Hemplace. destruct Hemplace as (Hpaired' & extra & Hextra & Hperm).
    destruct (sendData (sub_ (this s)) _) as [sub' [[]|exn]]; run_monad;
      (split; [exact Hpaired'|]); exists extra; (split; [exact Hextra|]);
      exact Hperm.
Qed.

Lemma setProvider_books (obj : value) : books (Sub := Sub) [] (setProvider obj).
Proof.
  apply books_still. intro s. unfold setProvider. run_monad. now split.
Qed.

Lemma set_sub__books (sub : Sub) : books (Sub := Sub) [] (set_sub_ sub).
Proof.
  apply books_still. intro s. unfold set_sub_. run_monad. now split.
Qed.

Lemma join_books (param : option Z) (ticket : nat) :
  books (Sub := Sub) [] (join param ticket).
Proof.
  apply books_still. intro s. unfold join. run_monad.
  destruct (inspectReady _ _); run_monad; now split.
Qed.

Lemma expire_books (ticket : nat) : books (Sub := Sub) [] (expire ticket).
Proof.
  apply books_still. intro s. unfold expire. run_monad.
  destruct (existsb _ _); run_monad; now split.
Qed.

Lemma on_object_books {A : Type} (new : list nat) (i : nat) (m : M A) p :
  books new m ->
  all_paired p ->
  all_paired (fst (on_object i m p))
  /\ exists extra,
       (extra = [] \/ extra = new)
       /\ Permutation
            (settled (snd (on_object i m p)) ++ pending (fst (on_object i m p)))
            (extra ++ pending p).
Proof.
  intros Hbooks Hall. unfold on_object.
  destruct (nth_error (objects p) i) as [c|] eqn:Hnth.
  2: { split; [exact Hall|]. exists []. split; [now left | reflexivity]. }
  destruct (Hbooks (new_frame (static_SEQUENCE p) c))
    as (Hpaired & extra & Hextra & Hperm).
  { apply (nth_error_Forall _ _ _ _ Hall Hnth). }
  cbn [fst snd this] in *. split.
  - unfold all_paired. cbn [objects].
    now apply Forall_replace_nth.
  - exists extra. split; [exact Hextra|].
    destruct (flat_map_around (fun c => waiting (promises_ c)) i c
                (objects p) Hnth) as (a & b & Hbefore & Hafter).
    unfold pending. cbn [objects]. rewrite Hbefore, Hafter.
    now apply perm_around.
Qed.

Lemma perform_books (a : action) p :
  all_paired p ->
  all_paired (fst (perform a p))
  /\ exists extra,
       (extra = [] \/ extra = issued [a])
       /\ Permutation
            (settled (snd (perform a p)) ++ pending (fst (perform a p)))
            (extra ++ pending p).
Proof.
  intro Hall.
  destruct a as [provider sub|i name params promise|i invoke|i error|i obj
                |i param ticket|i ticket|i sub]; cbn [perform issued].
  - cbn [fst snd settled app]. split.
    + unfold all_paired. cbn [objects]. apply Forall_app. split; [exact Hall|].
      repeat constructor.
    + exists []. split; [now left|]. unfold pending. cbn [objects].
      rewrite flat_map_app. cbn. now rewrite app_nil_r.
  - apply on_object_books; [apply _Call_function_books | exact Hall].
  - apply on_object_books; [apply replyData_books | exact Hall].
  - apply on_object_books; [apply destructor_books | exact Hall].
  - apply on_object_books; [apply setProvider_books | exact Hall].
  - apply on_object_books; [apply join_books | exact Hall].
  - apply on_object_books; [apply expire_books | exact Hall].
  - apply on_object_books; [apply set_sub__books | exact Hall].
Qed.

Lemma issued_cons (a : @action Sub) (acts : list (@action Sub)) :
  issued (a :: acts) = issued [a] ++ issued acts.
Proof. destruct a; reflexivity. Qed.

Lemma run_books (acts : list action) p :
  all_paired p ->
  exists extra unused,
    Permutation (issued acts) (extra ++ unused)
    /\ Permutation (settled (snd (run acts p)) ++ pending (fst (run acts p)))
         (extra ++ pending p).
Proof.
  revert p. induction acts as [|a acts IH]; intros p Hall.
  - exists [], []. split; reflexivity.
  - rewrite run_cons. cbn [fst snd].
    destruct (perform_books a p Hall) as (Hall1 & extra1 & Hextra1 & Hperm1).
    destruct (IH _ Hall1) as (extra2 & unused2 & Hissued2 & Hperm2).
    rewrite issued_cons, settled_app.
    exists (extra1 ++ extra2),
           (match extra1 with [] => @issued Sub [a] | _ => [] end ++ unused2).
    split.
    + rewrite Hissued2.
      destruct Hextra1 as [-> | ->].
      * cbn [app]. apply Permutation_app_swap_app.
      * destruct (issued [a]) as [|n l]; cbn [app]; [reflexivity|].
        now rewrite <- !app_assoc.
    + rewrite <- !app_assoc.
      transitivity (settled (snd (perform a p))
                    ++ extra2 ++ pending (fst (perform a p))).
      { apply Permutation_app_head. exact Hperm2. }
      transitivity (extra2 ++ settled (snd (perform a p))
                    ++ pending (fst (perform a p))).
      { apply Permutation_app_swap_app. }
      transitivity (extra2 ++ extra1 ++ pending p).
      { apply Permutation_app_head. exact Hperm1. }
      apply Permutation_app_swap_app.
Qed.

(** X19.  No promise is settled twice.  Over any sequence of actions on a
    fresh process in which every driver call is given a promise of its
    own, the continuation calls made (by replies, by the destructor and by
    calls rejected for not being ready) settle pairwise different
    promises, each one issued by a call, and a promise that was settled
    waits in no pending-call table any more. *)
Theorem no_promise_settled_twice (acts : list action) :
  NoDup (issued acts) ->
  let p := fst (run acts boot) in
  let evs := snd (run acts boot) in
  NoDup (settled evs ++ pending p)
  /\ incl (settled evs ++ pending p) (issued acts).
Proof.
  intros Hnodup p evs.
  assert (Hboot : all_paired (@boot Sub)) by constructor.
  destruct (run_books acts boot Hboot) as (extra & unused & Hissued & Hperm).
  fold p evs in Hperm. cbn [boot pending objects flat_map] in Hperm.
  rewrite app_nil_r in Hperm. split.
  - apply (Permutation_NoDup (Permutation_sym Hperm)).
    apply (Permutation_NoDup Hissued) in Hnodup.
    now apply NoDup_app_remove_r in Hnodup.
  - intros x Hx. apply (Permutation_in _ Hperm) in Hx.
    apply (Permutation_in _ (Permutation_sym Hissued)).
    apply in_or_app. now left.
Qed.

End Settlement.

Lemma no_promise_settled_twice_witness :
  NoDup (issued Example.session)
  /\ settled (snd (run (host := Example.host) (derived := Example.derived)
                    Example.session boot)) = [10%nat]
  /\ pending (fst (run (host := Example.host) (derived := Example.derived)
                    Example.session boot)) = [20%nat; 30%nat]
  /\ NoDup (settled (snd (run (host := Example.host)
                            (derived := Example.derived)
                            Example.session boot))
           ++ pending (fst (run (host := Example.host)
                              (derived := Example.derived)
                              Example.session boot))).
Proof.
  assert (Hnodup : NoDup (issued Example.session)).
  { repeat constructor; simpl; intuition discriminate. }
  split; [exact Hnodup|]. split; [reflexivity|]. split; [reflexivity|].
  exact (proj1 (no_promise_settled_twice (host := Example.host)
                  (derived := Example.derived) Example.session Hnodup)).
Defined.
